(** * Cookie browser dialog: grouping and sorting of cookies

    A shallow embedding of [getCookieList] and its comparators from
    [src/components/dialogs/cookieBrowserDialog.tsx], together with the parts
    of the JavaScript run-time the function relies on: string comparison,
    [Array.prototype.sort], and property lookup / assignment / enumeration on
    the object literal that the function uses as its domain map. *)

From Stdlib Require Import String Ascii List ZArith NArith Bool Lia.
From Stdlib Require Import Permutation Sorted.
Import ListNotations.
Local Open Scope string_scope.
Local Open Scope list_scope.

(** ** Results of code that may throw *)

(** The only exception [getCookieList] can raise by itself is the [TypeError]
    of [byDomain.cookies.push] when [byDomain.cookies] is [undefined]. *)
Inductive result (A : Type) : Type :=
| Ok (a : A)
| TypeError.
Arguments Ok {A} a.
Arguments TypeError {A}.

Definition bind {A B : Type} (r : result A) (k : A -> result B) : result B :=
  match r with
  | Ok a => k a
  | TypeError => TypeError
  end.

(** ** JavaScript strings

    A string is its sequence of code units; [<] on strings is the
    lexicographic order of the code units. *)
Module JsString.

(** [s.startsWith(p)] *)
Definition startsWith (s p : string) : bool := String.prefix p s.

(** [s.substr(start)]: the rest of the string from index [start]. *)
Definition substr (s : string) (start : nat) : string :=
  String.substring start (String.length s - start) s.

(** [a < b] on strings. *)
Definition lt (a b : string) : bool := String.ltb a b.

(** Truthiness of a string: only the empty string is falsy. *)
Definition truthy (s : string) : bool := negb (s =? EmptyString).

(** Lower-casing of the code units [A]..[Z]; on strings made of ASCII code
    units this is [String.prototype.toLowerCase].  It instantiates the
    [toLowerCase] parameter of the development on concrete inputs. *)
Definition asciiLower (c : ascii) : ascii :=
  let n := N_of_ascii c in
  if ((65 <=? n) && (n <=? 90))%N then ascii_of_N (n + 32) else c.

Fixpoint asciiToLowerCase (s : string) : string :=
  match s with
  | EmptyString => EmptyString
  | String c r => String (asciiLower c) (asciiToLowerCase r)
  end.

(** The property keys that [Object.keys] lists first: canonical decimal
    numerals below [2^32 - 1] ("array indices"). *)
Definition digitValue (c : ascii) : option N :=
  let n := N_of_ascii c in
  if ((48 <=? n) && (n <=? 57))%N then Some (n - 48)%N else None.

Fixpoint decimal (acc : N) (s : string) : option N :=
  match s with
  | EmptyString => Some acc
  | String c r =>
      match digitValue c with
      | Some d => decimal (10 * acc + d)%N r
      | None => None
      end
  end.

Definition arrayIndex (s : string) : option N :=
  match s with
  | EmptyString => None
  | String c r =>
      if (c =? "0")%char
      then (if r =? EmptyString then Some 0%N else None)
      else match decimal 0 s with
           | Some n => if (n <? 2 ^ 32 - 1)%N then Some n else None
           | None => None
           end
  end.

End JsString.

(** ** JavaScript arrays *)
Module JsArray.
Section Sort.
Context {A : Type}.
Variable compareFn : A -> A -> Z.

(** [Array.prototype.sort(compareFn)].  The sort is stable (ECMAScript
    2019; merge sort in Firefox before that): an element is placed in
    front of the first element it does not compare greater than, so
    elements that compare equal keep their relative order. *)
Fixpoint insert (x : A) (l : list A) : list A :=
  match l with
  | [] => [x]
  | y :: l' =>
      if (compareFn x y <=? 0)%Z then x :: y :: l' else y :: insert x l'
  end.

Fixpoint sort (l : list A) : list A :=
  match l with
  | [] => []
  | x :: l' => insert x (sort l')
  end.
End Sort.
End JsArray.

(** ** Data model *)

(** [CleanupType] of [lib/settingsSignature], as [ruleDialog.tsx] uses it. *)
Inductive CleanupType : Type := NEVER | STARTUP | LEAVE | INSTANTLY.

(** [BadgeInfo] of [background/backgroundHelpers]: the fields the dialog reads. *)
Record BadgeInfo : Type := {
  className : string;
  i18nBadge : string;
  i18nButton : string
}.

(** [Cookies.Cookie] of webextension-polyfill-ts: the fields the dialog
    reads.  Only [domain] and [name] are read by [getCookieList]; the rest is
    carried along. *)
Module Cookies.
Record Cookie : Type := {
  name : string;
  value : string;
  domain : string;
  secure : bool;
  session : bool;
  storeId : string
}.
End Cookies.

Module CookieListCookie.
Record t : Type := {
  badge : BadgeInfo;
  cookie : Cookies.Cookie
}.
End CookieListCookie.

Module CookieListForDomain.
Record t : Type := {
  badge : BadgeInfo;
  domain : string;
  firstPartyDomain : string;
  cookies : list CookieListCookie.t
}.

(** [byDomain.cookies.push(mapped)] *)
Definition push (g : t) (mapped : CookieListCookie.t) : t :=
  {| badge := badge g;
     domain := domain g;
     firstPartyDomain := firstPartyDomain g;
     cookies := cookies g ++ [mapped] |}.

(** [a.cookies.sort(compareFn)] *)
Definition sortCookies (compareFn : CookieListCookie.t -> CookieListCookie.t -> Z)
           (g : t) : t :=
  {| badge := badge g;
     domain := domain g;
     firstPartyDomain := firstPartyDomain g;
     cookies := JsArray.sort compareFn (cookies g) |}.
End CookieListForDomain.

(** ** The object [cookiesByDomain]

    [const cookiesByDomain: { [s: string]: CookieListForDomain } = {}] is an
    ordinary object: it has own properties, created by assignment, and a
    prototype, initially [Object.prototype].  Reading [cookiesByDomain[k]]
    walks the prototype chain; assigning to the key ["__proto__"] runs the
    setter inherited from [Object.prototype] and replaces the prototype
    instead of creating an own property. *)
Module JsObject.

Record t : Type := {
  (** own properties, in creation order *)
  own : list (string * CookieListForDomain.t);
  (** [Some g] once the prototype has been replaced by the group [g];
      [None] while it still is [Object.prototype] *)
  proto : option CookieListForDomain.t
}.

(** [{}] *)
Definition empty : t := {| own := []; proto := None |}.

(** The property names of [Object.prototype] (ECMA-262, with Annex B). *)
Definition objectPrototypeNames : list string :=
  [ "constructor"; "hasOwnProperty"; "isPrototypeOf"; "propertyIsEnumerable";
    "toLocaleString"; "toString"; "valueOf"; "__proto__";
    "__defineGetter__"; "__defineSetter__";
    "__lookupGetter__"; "__lookupSetter__" ].

Definition isObjectPrototypeName (k : string) : bool :=
  existsb (String.eqb k) objectPrototypeNames.

(** Where a group that a lookup found lives. *)
Inductive ref : Type :=
| OwnRef (k : string)
| ProtoRef.

(** What a lookup can yield. *)
Inductive value : Type :=
| Undefined
| Str (s : string)
| Group (r : ref) (g : CookieListForDomain.t)
| Other.   (* a function, [Object.prototype], a [BadgeInfo], an array *)

Definition truthy (v : value) : bool :=
  match v with
  | Undefined => false
  | Str s => JsString.truthy s
  | Group _ _ => true
  | Other => true
  end.

Fixpoint lookupOwn (l : list (string * CookieListForDomain.t)) (k : string)
  : option CookieListForDomain.t :=
  match l with
  | [] => None
  | (k', g) :: l' => if k =? k' then Some g else lookupOwn l' k
  end.

(** A property found on [Object.prototype]. *)
Definition getInherited (k : string) : value :=
  if isObjectPrototypeName k then Other else Undefined.

(** A property found on a group that has become the prototype. *)
Definition getFromGroup (g : CookieListForDomain.t) (k : string) : value :=
  if k =? "badge" then Other
  else if k =? "domain" then Str (CookieListForDomain.domain g)
  else if k =? "firstPartyDomain" then Str (CookieListForDomain.firstPartyDomain g)
  else if k =? "cookies" then Other
  else getInherited k.

(** [o[k]] *)
Definition get (o : t) (k : string) : value :=
  match lookupOwn (own o) k with
  | Some g => Group (OwnRef k) g
  | None =>
      match proto o with
      | None => getInherited k
      | Some g => if k =? "__proto__" then Group ProtoRef g else getFromGroup g k
      end
  end.

Fixpoint assignOwn (l : list (string * CookieListForDomain.t)) (k : string)
         (g : CookieListForDomain.t) : list (string * CookieListForDomain.t) :=
  match l with
  | [] => [(k, g)]
  | (k', g') :: l' =>
      if k =? k' then (k', g) :: l' else (k', g') :: assignOwn l' k g
  end.

(** [o[k] = g] *)
Definition set (o : t) (k : string) (g : CookieListForDomain.t) : t :=
  if k =? "__proto__"
  then {| own := own o; proto := Some g |}
  else {| own := assignOwn (own o) k g; proto := proto o |}.

(** In-place mutation of the group behind a reference. *)
Definition mutate (o : t) (r : ref) (g : CookieListForDomain.t) : t :=
  match r with
  | OwnRef k => {| own := assignOwn (own o) k g; proto := proto o |}
  | ProtoRef => {| own := own o; proto := Some g |}
  end.

Definition compareIndex (a b : N * string) : Z :=
  match N.compare (fst a) (fst b) with
  | Lt => (-1)%Z
  | Eq => 0%Z
  | Gt => 1%Z
  end.

Fixpoint indexKeys (l : list string) : list (N * string) :=
  match l with
  | [] => []
  | k :: l' =>
      match JsString.arrayIndex k with
      | Some n => (n, k) :: indexKeys l'
      | None => indexKeys l'
      end
  end.

Definition isNameKey (k : string) : bool :=
  match JsString.arrayIndex k with
  | Some _ => false
  | None => true
  end.

(** [Object.keys(o)]: the own keys that are array indices in ascending
    numeric order, then the other own keys in creation order. *)
Definition keys (o : t) : list string :=
  let ks := map fst (own o) in
  map snd (JsArray.sort compareIndex (indexKeys ks)) ++ filter isNameKey ks.

(** [ks.map((k) => o[k])] for own keys [ks]. *)
Fixpoint mapGet (o : t) (ks : list string) : list CookieListForDomain.t :=
  match ks with
  | [] => []
  | k :: ks' =>
      match lookupOwn (own o) k with
      | Some g => g :: mapGet o ks'
      | None => mapGet o ks'
      end
  end.

End JsObject.

(** ** The dialog's functions *)

Section CookieBrowserDialog.

(** [String.prototype.toLowerCase] *)
Variable toLowerCase : string -> string.
(** [getDomain] of tldjs: the first-party domain, or [null] *)
Variable getDomain : string -> option string.
(** [settings.getCleanupTypeForCookie] and [settings.getCleanupTypeForDomain] *)
Variable getCleanupTypeForCookie : string -> string -> CleanupType.
Variable getCleanupTypeForDomain : string -> CleanupType.
(** [getBadgeForCleanupType] of [background/backgroundHelpers] *)
Variable getBadgeForCleanupType : CleanupType -> BadgeInfo.

Definition compareCaseInsensitive (a b : string) : Z :=
  let lowerA := toLowerCase a in
  let lowerB := toLowerCase b in
  if JsString.lt lowerA lowerB then (-1)%Z
  else if JsString.lt lowerB lowerA then 1%Z
  else 0%Z.

Definition compareDomain (a b : CookieListForDomain.t) : Z :=
  let value := compareCaseInsensitive (CookieListForDomain.firstPartyDomain a)
                                      (CookieListForDomain.firstPartyDomain b) in
  if negb (value =? 0)%Z then value
  else compareCaseInsensitive (CookieListForDomain.domain a)
                              (CookieListForDomain.domain b).

Definition compareCookieName (a b : CookieListCookie.t) : Z :=
  compareCaseInsensitive (Cookies.name (CookieListCookie.cookie a))
                         (Cookies.name (CookieListCookie.cookie b)).

(** [cookie.domain.startsWith(".") ? cookie.domain.substr(1) : cookie.domain] *)
Definition rawDomainOf (domain : string) : string :=
  if JsString.startsWith domain "." then JsString.substr domain 1 else domain.

(** [getDomain(rawDomain) || rawDomain] *)
Definition firstPartyDomainOf (rawDomain : string) : string :=
  match getDomain rawDomain with
  | Some d => if JsString.truthy d then d else rawDomain
  | None => rawDomain
  end.

(** The object literal assigned in the [else] branch of the loop. *)
Definition newGroup (cookie : Cookies.Cookie) (mapped : CookieListCookie.t)
  : CookieListForDomain.t :=
  let rawDomain := rawDomainOf (Cookies.domain cookie) in
  {| CookieListForDomain.badge :=
       getBadgeForCleanupType (getCleanupTypeForDomain rawDomain);
     CookieListForDomain.domain := Cookies.domain cookie;
     CookieListForDomain.firstPartyDomain := firstPartyDomainOf rawDomain;
     CookieListForDomain.cookies := [mapped] |}.

(** [{ badge, cookie }] *)
Definition mappedOf (cookie : Cookies.Cookie) : CookieListCookie.t :=
  let rawDomain := rawDomainOf (Cookies.domain cookie) in
  let cleanupTypeForCookie := getCleanupTypeForCookie rawDomain (Cookies.name cookie) in
  {| CookieListCookie.badge := getBadgeForCleanupType cleanupTypeForCookie;
     CookieListCookie.cookie := cookie |}.

(** One iteration of [for (const cookie of cookies)]. *)
Definition addCookie (cookiesByDomain : JsObject.t) (cookie : Cookies.Cookie)
  : result JsObject.t :=
  let rawDomain := rawDomainOf (Cookies.domain cookie) in
  let byDomain := JsObject.get cookiesByDomain (Cookies.domain cookie) in
  let mapped := mappedOf cookie in
  if JsObject.truthy byDomain then
    match byDomain with
    | JsObject.Group r g =>
        Ok (JsObject.mutate cookiesByDomain r (CookieListForDomain.push g mapped))
    | _ => TypeError        (* [byDomain.cookies] is [undefined] *)
    end
  else
    Ok (JsObject.set cookiesByDomain rawDomain (newGroup cookie mapped)).

(** The whole loop. *)
Fixpoint addCookies (cookiesByDomain : JsObject.t) (cookies : list Cookies.Cookie)
  : result JsObject.t :=
  match cookies with
  | [] => Ok cookiesByDomain
  | cookie :: rest =>
      bind (addCookie cookiesByDomain cookie) (fun o => addCookies o rest)
  end.

(** [Object.keys(cookiesByDomain).map((domain) => cookiesByDomain[domain])] *)
Definition groupsOf (cookiesByDomain : JsObject.t) : list CookieListForDomain.t :=
  JsObject.mapGet cookiesByDomain (JsObject.keys cookiesByDomain).

(** The two sorting passes after the loop. *)
Definition sortGroups (groups : list CookieListForDomain.t)
  : list CookieListForDomain.t :=
  let cookiesByDomainList := JsArray.sort compareDomain groups in
  map (CookieListForDomain.sortCookies compareCookieName) cookiesByDomainList.

(** [getCookieList], on the cookies that [browser.cookies.getAll({})]
    resolved to. *)
Definition getCookieList (cookies : list Cookies.Cookie)
  : result (list CookieListForDomain.t) :=
  bind (addCookies JsObject.empty cookies)
       (fun cookiesByDomain => Ok (sortGroups (groupsOf cookiesByDomain))).

End CookieBrowserDialog.

(** ** Concrete collaborators and inputs used in the examples *)

Definition mkCookie (domain name : string) : Cookies.Cookie :=
  {| Cookies.name := name; Cookies.value := "v"; Cookies.domain := domain;
     Cookies.secure := false; Cookies.session := true; Cookies.storeId := "0" |}.

Definition badgeOf (t : CleanupType) : BadgeInfo :=
  match t with
  | NEVER => {| className := "badge_white"; i18nBadge := "badge_never";
                i18nButton := "cleanup_type_never_button" |}
  | STARTUP => {| className := "badge_gray"; i18nBadge := "badge_startup";
                  i18nButton := "cleanup_type_startup_button" |}
  | LEAVE => {| className := "badge_forget"; i18nBadge := "badge_leave";
                i18nButton := "cleanup_type_leave_button" |}
  | INSTANTLY => {| className := "badge_block"; i18nBadge := "badge_instantly";
                    i18nButton := "cleanup_type_instantly_button" |}
  end.

(** A resolver that knows no public suffix at all. *)
Definition noDomain (_ : string) : option string := None.

(** A resolver that keeps the last two labels of a dotted name. *)
Fixpoint labels (acc : string) (s : string) : list string :=
  match s with
  | EmptyString => [acc]
  | String c r =>
      if (c =? ".")%char then acc :: labels EmptyString r
      else labels (String.append acc (String c EmptyString)) r
  end.

Definition lastTwoLabels (s : string) : option string :=
  match rev (labels EmptyString s) with
  | tld :: sld :: _ =>
      if (negb (tld =? EmptyString)) && (negb (sld =? EmptyString))
      then Some (String.append sld (String.append "." tld)) else None
  | _ => None
  end.

Definition cookieType (_ _ : string) : CleanupType := LEAVE.
Definition domainType (_ : string) : CleanupType := STARTUP.

(** [getCookieList] with the example collaborators. *)
Definition exampleCookieList (resolver : string -> option string)
  : list Cookies.Cookie -> result (list CookieListForDomain.t) :=
  getCookieList JsString.asciiToLowerCase resolver cookieType domainType badgeOf.

(** The shape of the output: per group, its domain, first-party domain and
    cookie names. *)
Definition shape (groups : list CookieListForDomain.t)
  : list (string * string * list string) :=
  map (fun g => (CookieListForDomain.domain g, CookieListForDomain.firstPartyDomain g,
                 map (fun c => Cookies.name (CookieListCookie.cookie c))
                     (CookieListForDomain.cookies g))) groups.

(** Per group, its domain and its cookie names. *)
Definition cookieNames_of_groups (groups : list CookieListForDomain.t)
  : list (string * list string) :=
  map (fun g => (CookieListForDomain.domain g,
                 map (fun c => Cookies.name (CookieListCookie.cookie c))
                     (CookieListForDomain.cookies g))) groups.

Definition shapeOf (r : result (list CookieListForDomain.t))
  : result (list (string * string * list string)) :=
  bind r (fun groups => Ok (shape groups)).

(** ** Orderings and measures that the properties are stated with *)

(** [a] may stand in front of [b] in an array sorted with [compareFn]. *)
Definition inOrder {A : Type} (compareFn : A -> A -> Z) (a b : A) : Prop :=
  (compareFn a b <= 0)%Z.

(** [a <= b] and [a < b] in the lexicographic order of the code units. *)
Definition stringLe (a b : string) : Prop := String.leb a b = true.
Definition stringLt (a b : string) : Prop := String.ltb a b = true.

(** Every element is related to its successor. *)
Definition adjacentOrdered {A : Type} (R : A -> A -> Prop) (l : list A) : Prop :=
  forall i a b, nth_error l i = Some a -> nth_error l (S i) = Some b -> R a b.

Definition cookieNames (g : CookieListForDomain.t) : list string :=
  map (fun c => Cookies.name (CookieListCookie.cookie c)) (CookieListForDomain.cookies g).

(** The number of cookie entries across all groups. *)
Definition totalCookies (groups : list CookieListForDomain.t) : nat :=
  length (concat (map CookieListForDomain.cookies groups)).

(** The cookie record occurs in the group. *)
Definition inGroup (c : Cookies.Cookie) (g : CookieListForDomain.t) : Prop :=
  In c (map CookieListCookie.cookie (CookieListForDomain.cookies g)).

(** Two groups hold the same strings: equal badge, domain and first-party
    domain, and the same cookie entries up to their order. *)
Definition sameFields (g g' : CookieListForDomain.t) : Prop :=
  CookieListForDomain.badge g = CookieListForDomain.badge g' /\
  CookieListForDomain.domain g = CookieListForDomain.domain g' /\
  CookieListForDomain.firstPartyDomain g = CookieListForDomain.firstPartyDomain g' /\
  Permutation (CookieListForDomain.cookies g) (CookieListForDomain.cookies g').

Section Orderings.
Variable toLowerCase : string -> string.

(** Lexicographic order on pairs of lower-cased strings. *)
Definition pairLe (a1 a2 b1 b2 : string) : Prop :=
  stringLt (toLowerCase a1) (toLowerCase b1) \/
  (toLowerCase a1 = toLowerCase b1 /\ stringLe (toLowerCase a2) (toLowerCase b2)).

(** Groups ordered by first-party domain, then by the stored [domain]
    string (which keeps the leading dot of the cookie that made the group). *)
Definition groupLe (a b : CookieListForDomain.t) : Prop :=
  pairLe (CookieListForDomain.firstPartyDomain a) (CookieListForDomain.domain a)
         (CookieListForDomain.firstPartyDomain b) (CookieListForDomain.domain b).

(** Groups ordered by first-party domain, then by the raw domain, that is
    the stored domain with one leading dot stripped. *)
Definition groupLeRaw (a b : CookieListForDomain.t) : Prop :=
  pairLe (CookieListForDomain.firstPartyDomain a)
         (rawDomainOf (CookieListForDomain.domain a))
         (CookieListForDomain.firstPartyDomain b)
         (rawDomainOf (CookieListForDomain.domain b)).

Definition cookieLe (x y : CookieListCookie.t) : Prop :=
  stringLe (toLowerCase (Cookies.name (CookieListCookie.cookie x)))
           (toLowerCase (Cookies.name (CookieListCookie.cookie y))).

Definition cookiesSorted (groups : list CookieListForDomain.t) : Prop :=
  forall g, In g groups -> adjacentOrdered cookieLe (CookieListForDomain.cookies g).

Definition sortedByStoredDomain (groups : list CookieListForDomain.t) : Prop :=
  adjacentOrdered groupLe groups /\ cookiesSorted groups.

Definition sortedByRawDomain (groups : list CookieListForDomain.t) : Prop :=
  adjacentOrdered groupLeRaw groups /\ cookiesSorted groups.
End Orderings.

(** ** Inputs on which the lookup key and the insertion key coincide *)

(** A cookie domain without leading dot that is not the name of a property
    inherited from [Object.prototype]. *)
Definition plainDomain (d : string) : bool :=
  negb (JsString.startsWith d ".") && negb (JsObject.isObjectPrototypeName d).

Definition cookiesOfDomain (d : string) (cs : list Cookies.Cookie)
  : list Cookies.Cookie :=
  filter (fun c => Cookies.domain c =? d) cs.

Section Buckets.
Variable getDomain : string -> option string.
Variable getCleanupTypeForCookie : string -> string -> CleanupType.
Variable getCleanupTypeForDomain : string -> CleanupType.
Variable getBadgeForCleanupType : CleanupType -> BadgeInfo.

(** The group of all cookies of [cs] whose domain is [k], in input order. *)
Definition groupFor (k : string) (cs : list Cookies.Cookie) : CookieListForDomain.t :=
  {| CookieListForDomain.badge :=
       getBadgeForCleanupType (getCleanupTypeForDomain k);
     CookieListForDomain.domain := k;
     CookieListForDomain.firstPartyDomain := firstPartyDomainOf getDomain k;
     CookieListForDomain.cookies :=
       map (mappedOf getCleanupTypeForCookie getBadgeForCleanupType)
           (cookiesOfDomain k cs) |}.

(** What the loop maintains on such inputs: the prototype is untouched,
    the own keys are exactly the domains seen so far, each once, and every
    key holds the group of all cookies seen for it. *)
Definition bucketInvariant (o : JsObject.t) (cs : list Cookies.Cookie) : Prop :=
  JsObject.proto o = None /\
  NoDup (map fst (JsObject.own o)) /\
  (forall k g, In (k, g) (JsObject.own o) ->
               g = groupFor k cs /\ In k (map Cookies.domain cs)) /\
  (forall c, In c cs -> In (Cookies.domain c) (map fst (JsObject.own o))).
End Buckets.

(** ** What the loop maintains on every input *)

(** The entries of the own groups, and those of the group that has become
    the prototype (which [Object.keys] does not list). *)
Definition ownCookies (o : JsObject.t) : list CookieListCookie.t :=
  flat_map CookieListForDomain.cookies (map snd (JsObject.own o)).

Definition protoCookies (o : JsObject.t) : list CookieListCookie.t :=
  match JsObject.proto o with
  | Some g => CookieListForDomain.cookies g
  | None => []
  end.

(** A domain that is not the name of a property of [Object.prototype] and
    whose raw domain is not ["__proto__"]. *)
Definition safeDomain (d : string) : bool :=
  negb (JsObject.isObjectPrototypeName d) && negb (rawDomainOf d =? "__proto__").

(** A domain with exactly one leading dot. *)
Definition dottedDomain (d : string) : bool :=
  JsString.startsWith d "." && negb (JsString.startsWith (rawDomainOf d) ".").

(** The last cookie of [cs] whose raw domain is [k]. *)
Definition lastOfRawDomain (k : string) (cs : list Cookies.Cookie)
  : option Cookies.Cookie :=
  find (fun c => rawDomainOf (Cookies.domain c) =? k) (rev cs).

Section LoopInvariant.
Variable getDomain : string -> option string.
Variable getCleanupTypeForCookie : string -> string -> CleanupType.
Variable getCleanupTypeForDomain : string -> CleanupType.
Variable getBadgeForCleanupType : CleanupType -> BadgeInfo.

(** A group stored under the key [k]: it was made by a cookie [c0] of raw
    domain [k], whose un-stripped domain, first-party domain and domain
    badge it carries, and it was extended by cookies whose un-stripped
    domain is [k]. *)
Definition groupWellFormed (k : string) (g : CookieListForDomain.t)
           (cs : list Cookies.Cookie) : Prop :=
  rawDomainOf (CookieListForDomain.domain g) = k /\
  CookieListForDomain.firstPartyDomain g = firstPartyDomainOf getDomain k /\
  CookieListForDomain.badge g = getBadgeForCleanupType (getCleanupTypeForDomain k) /\
  exists c0 rest,
    CookieListForDomain.cookies g =
      map (mappedOf getCleanupTypeForCookie getBadgeForCleanupType) (c0 :: rest) /\
    Cookies.domain c0 = CookieListForDomain.domain g /\
    (forall c, In c rest -> Cookies.domain c = k) /\
    incl (c0 :: rest) cs.

Definition loopInvariant (o : JsObject.t) (cs : list Cookies.Cookie) : Prop :=
  NoDup (map fst (JsObject.own o)) /\
  (forall k g, In (k, g) (JsObject.own o) ->
               k <> "__proto__" /\ groupWellFormed k g cs) /\
  (forall g, JsObject.proto o = Some g -> groupWellFormed "__proto__" g cs) /\
  exists lost,
    Permutation (ownCookies o ++ protoCookies o ++ lost)
                (map (mappedOf getCleanupTypeForCookie getBadgeForCleanupType) cs).
End LoopInvariant.

Section DottedInvariant.
Variable getDomain : string -> option string.
Variable getCleanupTypeForCookie : string -> string -> CleanupType.
Variable getCleanupTypeForDomain : string -> CleanupType.
Variable getBadgeForCleanupType : CleanupType -> BadgeInfo.

(** What the loop maintains when every domain has one leading dot: no own
    key has a leading dot, and every own key holds the one-cookie group of
    the last cookie seen with that raw domain. *)
Definition dottedInvariant (o : JsObject.t) (cs : list Cookies.Cookie) : Prop :=
  NoDup (map fst (JsObject.own o)) /\
  (forall k g, In (k, g) (JsObject.own o) ->
               JsString.startsWith k "." = false /\ k <> "__proto__" /\
               exists c, lastOfRawDomain k cs = Some c /\
                         g = newGroup getDomain getCleanupTypeForDomain
                                      getBadgeForCleanupType c
                                      (mappedOf getCleanupTypeForCookie
                                                getBadgeForCleanupType c)) /\
  (forall c, In c cs -> rawDomainOf (Cookies.domain c) <> "__proto__" ->
             In (rawDomainOf (Cookies.domain c)) (map fst (JsObject.own o))).
End DottedInvariant.

(** ** The list of the dialog and its search filter *)

(** A child of the [cookie_list] element, as far as [filterList] reads and
    writes it: the [textContent] of its descendants that carry
    [data-searchable], in document order, and whether its class list
    contains [collapsed]. *)
Record ListItem : Type := {
  searchable : list string;
  collapsed : bool
}.

(** [needle] occurs somewhere inside [s]. *)
Definition occursIn (needle s : string) : Prop :=
  exists before after, s = String.append before (String.append needle after).

Section Filter.
Variable toLowerCase : string -> string.
(** [String.prototype.trim] *)
Variable trim : string -> string.
(** [appendPunycode] of [components/helpers] *)
Variable appendPunycode : string -> string.

(** [s.indexOf(needle)] *)
Definition indexOf (s needle : string) : Z :=
  match String.index 0 needle s with
  | Some n => Z.of_nat n
  | None => (-1)%Z
  end.

(** [searchables.every((s) => (s.textContent || "").toLowerCase().indexOf(needle) === -1)] *)
Definition noneMatches (needle : string) (searchables : list string) : bool :=
  forallb (fun s => (indexOf (toLowerCase s) needle =? -1)%Z) searchables.

(** [child.classList.toggle("collapsed", force)] *)
Definition toggleCollapsed (child : ListItem) (force : bool) : ListItem :=
  {| searchable := searchable child; collapsed := force |}.

(** [filterList], on the value of the search field and the children of the
    list element. *)
Definition filterList (value : string) (children : list ListItem) : list ListItem :=
  let needle := toLowerCase (trim value) in
  if JsString.truthy needle then
    map (fun child => toggleCollapsed child (noneMatches needle (searchable child)))
        children
  else
    map (fun child => toggleCollapsed child false) children.

(** The searchable texts of the item that [mapToCookieItem] builds: the
    cookie name in the label, then the value among the attributes. *)
Definition cookieItemSearchable (entry : CookieListCookie.t) : list string :=
  [Cookies.name (CookieListCookie.cookie entry);
   Cookies.value (CookieListCookie.cookie entry)].

(** The item that [mapToDomainItem] builds, as [filterList] sees it: the
    domain with its punycode form, then the texts of the cookie items. *)
Definition mapToDomainItem (entry : CookieListForDomain.t) : ListItem :=
  {| searchable :=
       appendPunycode (CookieListForDomain.domain entry) ::
       flat_map cookieItemSearchable (CookieListForDomain.cookies entry);
     collapsed := false |}.

(** The list after [getCookieList().then(...)]: one item per group, then
    [filterList()]. *)
Definition showList (value : string) (groups : list CookieListForDomain.t)
  : list ListItem :=
  filterList value (map mapToDomainItem groups).
End Filter.

(** ASCII white space, and [trim] on strings of ASCII code units; used to
    instantiate [trim] on concrete inputs. *)
Definition isAsciiSpace (c : ascii) : bool :=
  let n := N_of_ascii c in
  ((n =? 32) || ((9 <=? n) && (n <=? 13)))%N.

Fixpoint asciiTrimStart (s : string) : string :=
  match s with
  | EmptyString => EmptyString
  | String c r => if isAsciiSpace c then asciiTrimStart r else s
  end.

Fixpoint asciiTrimEnd (s : string) : string :=
  match s with
  | EmptyString => EmptyString
  | String c r =>
      match asciiTrimEnd r with
      | EmptyString => if isAsciiSpace c then EmptyString else String c EmptyString
      | r' => String c r'
      end
  end.

Definition asciiTrim (s : string) : string := asciiTrimEnd (asciiTrimStart s).

(** The filter with the example collaborators; the punycode helper is taken
    to leave ASCII domains as they are. *)
Definition exampleShowList : string -> list CookieListForDomain.t -> list ListItem :=
  showList JsString.asciiToLowerCase asciiTrim (fun d => d).

(** ** The rule dialog ([RuleDialog], second part of the source file) *)

(** [RuleDialogProps], without the [onConfirm] callback and the focus type;
    an absent [expression] or [editable] is [undefined]. *)
Record RuleDialogProps : Type := {
  expression : option string;
  editable : option bool
}.

(** What the handlers of the dialog do, in order. *)
Inductive RuleDialogEffect : Type :=
| HideDialog                                  (* [hideDialog(dialog)] *)
| OnConfirm (type : option CleanupType)       (* [onConfirm(type, ...)]; [None] is [false] *)
            (expression : string) (temporary : bool)
| OpenConfirmDialog (type : CleanupType)      (* [<ConfirmDialog ... onClose={onConfirmClose}/>] *)
                    (expression : string)
| FocusInput.                                 (* [focus && focus.focus()] *)

Section RuleDialog.
Variable toLowerCase : string -> string.
Variable trim : string -> string.
(** [isValidExpression] of [lib/settings] *)
Variable isValidExpression : string -> bool.
(** [settings.getExactRuleDefinition(expression) !== null] *)
Variable hasExactRule : string -> bool.

Variable props : RuleDialogProps.
(** [temporaryCheckbox.checked] and the value of the expression input, as
    they are when a handler runs. *)
Variable checked : bool.
Variable inputValue : string.

Definition isEditable : bool :=
  match editable props with
  | Some b => b
  | None => false
  end.

Definition onCancel : list RuleDialogEffect :=
  [HideDialog; OnConfirm None EmptyString false].

Definition onConfirmClose (type : CleanupType) (expression : string) (value : bool)
  : list RuleDialogEffect :=
  if value then [HideDialog; OnConfirm (Some type) expression checked]
  else [FocusInput].

Definition confirmAndHideChecked (type : CleanupType) (expression : string)
  : list RuleDialogEffect :=
  if isEditable && JsString.truthy expression && hasExactRule expression
  then [OpenConfirmDialog type expression]
  else [HideDialog; OnConfirm (Some type) expression checked].

Definition selectRule (type : CleanupType) : list RuleDialogEffect :=
  match expression props with
  | None => confirmAndHideChecked type EmptyString
  | Some e =>
      if negb (JsString.truthy e) then confirmAndHideChecked type EmptyString
      else if negb isEditable then confirmAndHideChecked type e
      else
        let changedExpression := toLowerCase (trim inputValue) in
        if JsString.truthy changedExpression && isValidExpression changedExpression
        then confirmAndHideChecked type changedExpression
        else []
  end.
End RuleDialog.

(** ** Runs of [getCookieList] on a conforming engine

    The loop, [Object.keys] and the comparators leave the engine no choice;
    [Array.prototype.sort] does: the language fixes what its result must
    satisfy, not the algorithm. *)

(** [x] and [y] compare equal. *)
Definition tiedWith {A : Type} (compareFn : A -> A -> Z) (x y : A) : bool :=
  (compareFn x y =? 0)%Z.

(** What ECMAScript asks of [before.sort(compareFn)]: the result is a
    rearrangement of the array, it is in order, and the sort is stable, that
    is, the elements that compare equal to any given element keep their
    relative order. *)
Definition sortedBy {A : Type} (compareFn : A -> A -> Z) (before after : list A)
  : Prop :=
  Permutation before after /\
  Sorted (inOrder compareFn) after /\
  forall x, filter (tiedWith compareFn x) after = filter (tiedWith compareFn x) before.

Section Runs.
Variable toLowerCase : string -> string.
Variable getDomain : string -> option string.
Variable getCleanupTypeForCookie : string -> string -> CleanupType.
Variable getCleanupTypeForDomain : string -> CleanupType.
Variable getBadgeForCleanupType : CleanupType -> BadgeInfo.

(** [a.cookies.sort(compareCookieName)] turned the group [a] into [g]. *)
Definition cookiesSortedBy (a g : CookieListForDomain.t) : Prop :=
  CookieListForDomain.badge g = CookieListForDomain.badge a /\
  CookieListForDomain.domain g = CookieListForDomain.domain a /\
  CookieListForDomain.firstPartyDomain g = CookieListForDomain.firstPartyDomain a /\
  sortedBy (compareCookieName toLowerCase)
           (CookieListForDomain.cookies a) (CookieListForDomain.cookies g).

(** [outcome] is what a run of [getCookieList] on [cookies] can end with:
    the exception of the loop, or the list of groups after two sorting
    passes done by any conforming [sort]. *)
Definition mayReturn (cookies : list Cookies.Cookie)
           (outcome : result (list CookieListForDomain.t)) : Prop :=
  match addCookies getDomain getCleanupTypeForCookie getCleanupTypeForDomain
                   getBadgeForCleanupType JsObject.empty cookies with
  | TypeError => outcome = TypeError
  | Ok cookiesByDomain =>
      exists cookiesByDomainList groups,
        sortedBy (compareDomain toLowerCase) (groupsOf cookiesByDomain)
                 cookiesByDomainList /\
        Forall2 cookiesSortedBy cookiesByDomainList groups /\
        outcome = Ok groups
  end.
End Runs.

(** * Properties *)

(** ** [Array.prototype.sort] *)

Section SortFacts.
Context {A : Type}.
Variable compareFn : A -> A -> Z.

Local Abbreviation inOrder := (inOrder compareFn).

Lemma insert_perm (x : A) (l : list A) :
  Permutation (JsArray.insert compareFn x l) (x :: l).
Proof.
  induction l as [|y l IH]; simpl.
  - apply Permutation_refl.
  - destruct (compareFn x y <=? 0)%Z.
    + apply Permutation_refl.
    + apply perm_trans with (y :: x :: l).
      * apply perm_skip, IH.
      * apply perm_swap.
Qed.

Lemma sort_perm (l : list A) : Permutation (JsArray.sort compareFn l) l.
Proof.
  induction l as [|x l IH]; simpl.
  - apply perm_nil.
  - apply perm_trans with (x :: JsArray.sort compareFn l).
    + apply insert_perm.
    + apply perm_skip, IH.
Qed.

Lemma sort_length (l : list A) : length (JsArray.sort compareFn l) = length l.
Proof. apply Permutation_length, sort_perm. Qed.

Lemma sort_In (l : list A) (x : A) : In x (JsArray.sort compareFn l) <-> In x l.
Proof.
  split; apply Permutation_in.
  - apply sort_perm.
  - apply Permutation_sym, sort_perm.
Qed.

(** The comparator never says "greater" in both directions. *)
Hypothesis compareFn_total : forall a b, inOrder a b \/ inOrder b a.

Lemma insert_hd (x y : A) (l : list A) :
  inOrder y x -> HdRel inOrder y l -> HdRel inOrder y (JsArray.insert compareFn x l).
Proof.
  intros Hyx Hhd. destruct l as [|z l]; simpl.
  - constructor. exact Hyx.
  - destruct (compareFn x z <=? 0)%Z.
    + constructor. exact Hyx.
    + constructor. inversion Hhd; assumption.
Qed.

Lemma insert_sorted (x : A) (l : list A) :
  Sorted inOrder l -> Sorted inOrder (JsArray.insert compareFn x l).
Proof.
  induction 1 as [|y l Hs IH Hhd]; simpl.
  - repeat constructor.
  - destruct (compareFn x y <=? 0)%Z eqn:E.
    + constructor.
      * constructor; assumption.
      * constructor. unfold inOrder. apply Z.leb_le. exact E.
    + constructor.
      * exact IH.
      * apply insert_hd; [|exact Hhd].
        destruct (compareFn_total x y) as [H|H]; [|exact H].
        unfold inOrder in H. apply Z.leb_le in H. congruence.
Qed.

Lemma sort_sorted (l : list A) : Sorted inOrder (JsArray.sort compareFn l).
Proof.
  induction l as [|x l IH]; simpl.
  - constructor.
  - apply insert_sorted, IH.
Qed.
End SortFacts.

Lemma sort_ext {A : Type} (f g : A -> A -> Z) (l : list A) :
  (forall a b, f a b = g a b) -> JsArray.sort f l = JsArray.sort g l.
Proof.
  intros Hfg.
  assert (Hins : forall x m, JsArray.insert f x m = JsArray.insert g x m).
  { intros x m. induction m as [|y m IH]; simpl; [reflexivity|].
    rewrite Hfg, IH. reflexivity. }
  induction l as [|x l IH]; simpl; [reflexivity|].
  rewrite IH. apply Hins.
Qed.

(** Adjacent elements of a sorted list are related. *)
Lemma Sorted_adjacent {A : Type} (R : A -> A -> Prop) (l : list A) :
  Sorted R l ->
  forall i a b, nth_error l i = Some a -> nth_error l (S i) = Some b -> R a b.
Proof.
  induction 1 as [|x l Hs IH Hhd]; intros i a b Ha Hb.
  - destruct i; discriminate.
  - destruct i as [|i].
    + simpl in Ha. injection Ha as <-.
      destruct l as [|y l]; simpl in Hb; [discriminate|].
      injection Hb as <-. inversion Hhd; assumption.
    + simpl in Ha, Hb. eapply IH; eassumption.
Qed.

Lemma Sorted_weaken {A : Type} (R S' : A -> A -> Prop) (l : list A) :
  (forall a b, R a b -> S' a b) -> Sorted R l -> Sorted S' l.
Proof.
  intros Hw. induction 1 as [|x l Hs IH Hhd].
  - constructor.
  - constructor; [exact IH|].
    destruct Hhd; constructor. apply Hw. assumption.
Qed.

Lemma Sorted_map {A B : Type} (R : A -> A -> Prop) (S' : B -> B -> Prop)
      (f : A -> B) (l : list A) :
  (forall a b, R a b -> S' (f a) (f b)) -> Sorted R l -> Sorted S' (map f l).
Proof.
  intros Hf. induction 1 as [|x l Hs IH Hhd]; simpl.
  - constructor.
  - constructor; [exact IH|].
    destruct Hhd; simpl; constructor. apply Hf. assumption.
Qed.

(** ** String comparison *)

Lemma string_compare_refl (s : string) : String.compare s s = Eq.
Proof.
  pose proof (String.compare_antisym s s) as H.
  destruct (String.compare s s); simpl in H; congruence.
Qed.

Section ComparatorFacts.
Variable toLowerCase : string -> string.

Lemma compareCaseInsensitive_compare (a b : string) :
  compareCaseInsensitive toLowerCase a b =
  match String.compare (toLowerCase a) (toLowerCase b) with
  | Lt => (-1)%Z
  | Eq => 0%Z
  | Gt => 1%Z
  end.
Proof.
  unfold compareCaseInsensitive, JsString.lt, String.ltb.
  rewrite (String.compare_antisym (toLowerCase b) (toLowerCase a)).
  destruct (String.compare (toLowerCase a) (toLowerCase b)); reflexivity.
Qed.

Lemma compareCaseInsensitive_le (a b : string) :
  (compareCaseInsensitive toLowerCase a b <= 0)%Z <->
  stringLe (toLowerCase a) (toLowerCase b).
Proof.
  rewrite compareCaseInsensitive_compare. unfold stringLe, String.leb.
  destruct (String.compare (toLowerCase a) (toLowerCase b));
    split; intros H; try reflexivity; try lia; discriminate.
Qed.

Lemma compareCaseInsensitive_zero (a b : string) :
  compareCaseInsensitive toLowerCase a b = 0%Z <-> toLowerCase a = toLowerCase b.
Proof.
  rewrite compareCaseInsensitive_compare.
  destruct (String.compare (toLowerCase a) (toLowerCase b)) eqn:E; split; intros H;
    try discriminate; try reflexivity.
  - apply String.compare_eq_iff. exact E.
  - rewrite H, string_compare_refl in E. discriminate.
  - rewrite H, string_compare_refl in E. discriminate.
Qed.

Lemma compareCaseInsensitive_total (a b : string) :
  (compareCaseInsensitive toLowerCase a b <= 0)%Z \/
  (compareCaseInsensitive toLowerCase b a <= 0)%Z.
Proof.
  rewrite !compareCaseInsensitive_compare.
  rewrite (String.compare_antisym (toLowerCase a) (toLowerCase b)).
  destruct (String.compare (toLowerCase b) (toLowerCase a)); simpl; lia.
Qed.

Lemma compareCaseInsensitive_sym_zero (a b : string) :
  compareCaseInsensitive toLowerCase a b = 0%Z ->
  compareCaseInsensitive toLowerCase b a = 0%Z.
Proof.
  rewrite !compareCaseInsensitive_zero. congruence.
Qed.

Lemma compareDomain_total (a b : CookieListForDomain.t) :
  inOrder (compareDomain toLowerCase) a b \/ inOrder (compareDomain toLowerCase) b a.
Proof.
  unfold inOrder, compareDomain.
  destruct (compareCaseInsensitive toLowerCase
              (CookieListForDomain.firstPartyDomain a)
              (CookieListForDomain.firstPartyDomain b) =? 0)%Z eqn:E.
  - apply Z.eqb_eq in E. rewrite E.
    rewrite (compareCaseInsensitive_sym_zero _ _ E). simpl.
    apply compareCaseInsensitive_total.
  - simpl.
    destruct (compareCaseInsensitive_total
                (CookieListForDomain.firstPartyDomain a)
                (CookieListForDomain.firstPartyDomain b)) as [H|H].
    + left. exact H.
    + right.
      destruct (compareCaseInsensitive toLowerCase
                  (CookieListForDomain.firstPartyDomain b)
                  (CookieListForDomain.firstPartyDomain a) =? 0)%Z eqn:E'.
      * apply Z.eqb_eq in E'. apply compareCaseInsensitive_sym_zero in E'.
        apply Z.eqb_neq in E. contradiction.
      * simpl. exact H.
Qed.

Lemma compareCookieName_total (a b : CookieListCookie.t) :
  inOrder (compareCookieName toLowerCase) a b \/
  inOrder (compareCookieName toLowerCase) b a.
Proof. apply compareCaseInsensitive_total. Qed.
End ComparatorFacts.

(** ** The order that [compareDomain] and [compareCookieName] decide *)

Section OrderFacts.
Variable toLowerCase : string -> string.

Lemma compareCaseInsensitive_neg (a b : string) :
  (compareCaseInsensitive toLowerCase a b <= 0)%Z ->
  compareCaseInsensitive toLowerCase a b <> 0%Z ->
  stringLt (toLowerCase a) (toLowerCase b).
Proof.
  rewrite compareCaseInsensitive_compare. unfold stringLt, String.ltb.
  destruct (String.compare (toLowerCase a) (toLowerCase b));
    intros Hle Hne; try reflexivity; [congruence | lia].
Qed.

Lemma compareDomain_groupLe (a b : CookieListForDomain.t) :
  inOrder (compareDomain toLowerCase) a b -> groupLe toLowerCase a b.
Proof.
  unfold inOrder, compareDomain, groupLe, pairLe.
  destruct (compareCaseInsensitive toLowerCase
              (CookieListForDomain.firstPartyDomain a)
              (CookieListForDomain.firstPartyDomain b) =? 0)%Z eqn:E; simpl; intros H.
  - right. apply Z.eqb_eq in E. split.
    + apply compareCaseInsensitive_zero. exact E.
    + apply compareCaseInsensitive_le. exact H.
  - left. apply Z.eqb_neq in E. apply compareCaseInsensitive_neg; assumption.
Qed.

Lemma compareCookieName_cookieLe (x y : CookieListCookie.t) :
  inOrder (compareCookieName toLowerCase) x y -> cookieLe toLowerCase x y.
Proof.
  unfold inOrder, compareCookieName, cookieLe. apply compareCaseInsensitive_le.
Qed.

Lemma sortCookies_groupLe (a b : CookieListForDomain.t) :
  groupLe toLowerCase a b ->
  groupLe toLowerCase
    (CookieListForDomain.sortCookies (compareCookieName toLowerCase) a)
    (CookieListForDomain.sortCookies (compareCookieName toLowerCase) b).
Proof. intros H. exact H. Qed.

Lemma sortGroups_sorted (groups : list CookieListForDomain.t) :
  sortedByStoredDomain toLowerCase (sortGroups toLowerCase groups).
Proof.
  unfold sortedByStoredDomain, sortGroups. split.
  - unfold adjacentOrdered. apply Sorted_adjacent.
    apply Sorted_map with (R := groupLe toLowerCase).
    + apply sortCookies_groupLe.
    + apply Sorted_weaken with (R := inOrder (compareDomain toLowerCase)).
      * apply compareDomain_groupLe.
      * apply sort_sorted. apply compareDomain_total.
  - intros g Hg. apply in_map_iff in Hg. destruct Hg as [g0 [<- _]].
    unfold adjacentOrdered. apply Sorted_adjacent. simpl.
    apply Sorted_weaken with (R := inOrder (compareCookieName toLowerCase)).
    + apply compareCookieName_cookieLe.
    + apply sort_sorted. apply compareCookieName_total.
Qed.
End OrderFacts.

(** ** Sorting moves entries and never rewrites them *)

Lemma sortCookies_sameFields (compareFn : CookieListCookie.t -> CookieListCookie.t -> Z)
      (g : CookieListForDomain.t) :
  sameFields g (CookieListForDomain.sortCookies compareFn g).
Proof.
  unfold sameFields. simpl. repeat split.
  apply Permutation_sym, sort_perm.
Qed.

Lemma Forall2_map_right {A B : Type} (R : A -> B -> Prop) (f : A -> B) (l : list A) :
  (forall a, R a (f a)) -> Forall2 R l (map f l).
Proof.
  intros H. induction l; simpl; constructor; auto.
Qed.

Lemma sameFields_domains (l l' : list CookieListForDomain.t) :
  Forall2 sameFields l l' ->
  map CookieListForDomain.domain l = map CookieListForDomain.domain l' /\
  map CookieListForDomain.firstPartyDomain l =
  map CookieListForDomain.firstPartyDomain l'.
Proof.
  induction 1 as [|g g' l l' Hg Hl [IH1 IH2]]; simpl.
  - split; reflexivity.
  - destruct Hg as (_ & Hd & Hf & _). rewrite Hd, Hf, IH1, IH2. split; reflexivity.
Qed.

Lemma sameFields_names (l l' : list CookieListForDomain.t) :
  Forall2 sameFields l l' ->
  Permutation (flat_map cookieNames l) (flat_map cookieNames l').
Proof.
  induction 1 as [|g g' l l' Hg Hl IH]; simpl.
  - apply perm_nil.
  - apply Permutation_app; [|exact IH].
    destruct Hg as (_ & _ & _ & Hc). unfold cookieNames.
    apply Permutation_map. exact Hc.
Qed.

Lemma sameFields_total (l l' : list CookieListForDomain.t) :
  Forall2 sameFields l l' -> totalCookies l = totalCookies l'.
Proof.
  unfold totalCookies.
  induction 1 as [|g g' l l' Hg Hl IH]; simpl; [reflexivity|].
  rewrite !length_app, IH. destruct Hg as (_ & _ & _ & Hc).
  rewrite (Permutation_length Hc). reflexivity.
Qed.

Lemma totalCookies_perm (l l' : list CookieListForDomain.t) :
  Permutation l l' -> totalCookies l = totalCookies l'.
Proof.
  intros H. unfold totalCookies. rewrite <- !flat_map_concat_map.
  apply Permutation_length. apply Permutation_flat_map. exact H.
Qed.

Lemma sortGroups_total (toLowerCase : string -> string)
      (groups : list CookieListForDomain.t) :
  totalCookies (sortGroups toLowerCase groups) = totalCookies groups.
Proof.
  unfold sortGroups.
  rewrite <- (sameFields_total (JsArray.sort (compareDomain toLowerCase) groups)).
  - apply totalCookies_perm, sort_perm.
  - apply Forall2_map_right. intros g. apply sortCookies_sameFields.
Qed.

(** ** Claims about the whole function *)

Section GetCookieList.
Variable toLowerCase : string -> string.
Variable getDomain : string -> option string.
Variable getCleanupTypeForCookie : string -> string -> CleanupType.
Variable getCleanupTypeForDomain : string -> CleanupType.
Variable getBadgeForCleanupType : CleanupType -> BadgeInfo.

Local Abbreviation run :=
  (getCookieList toLowerCase getDomain getCleanupTypeForCookie
                 getCleanupTypeForDomain getBadgeForCleanupType).
Local Abbreviation loop :=
  (addCookies getDomain getCleanupTypeForCookie
              getCleanupTypeForDomain getBadgeForCleanupType).

Lemma getCookieList_Ok (cookies : list Cookies.Cookie)
      (groups : list CookieListForDomain.t) :
  run cookies = Ok groups ->
  exists o, loop JsObject.empty cookies = Ok o /\
            groups = sortGroups toLowerCase (groupsOf o).
Proof.
  unfold getCookieList. destruct (loop JsObject.empty cookies) as [o|]; simpl.
  - intros H. injection H as <-. exists o. split; reflexivity.
  - discriminate.
Qed.

(** C4 (as amended): whenever [getCookieList] returns, its groups are in
    ascending order of the lower-cased first-party domain, ties broken by
    the lower-cased stored [domain] string of the group (the un-stripped
    domain of the cookie that made the group), under the lexicographic
    order of strings; and inside every group the cookie entries are in
    ascending order of the lower-cased cookie name.  Both are stated on
    adjacent indices. *)
Theorem getCookieList_sorted (cookies : list Cookies.Cookie)
        (groups : list CookieListForDomain.t) :
  getCookieList toLowerCase getDomain getCleanupTypeForCookie
                getCleanupTypeForDomain getBadgeForCleanupType cookies = Ok groups ->
  sortedByStoredDomain toLowerCase groups.
Proof.
  intros H. apply getCookieList_Ok in H. destruct H as [o [_ ->]].
  apply sortGroups_sorted.
Qed.

(** C9: on the empty sequence of cookie records [getCookieList] returns
    the empty sequence of groups. *)
Theorem getCookieList_empty :
  getCookieList toLowerCase getDomain getCleanupTypeForCookie
                getCleanupTypeForDomain getBadgeForCleanupType [] = Ok [].
Proof. reflexivity. Qed.

End GetCookieList.

(** C8: sorting leaves the stored strings as they are.  The sorted output is
    a rearrangement of the groups as they were before sorting, each with its
    badge, [domain] and [firstPartyDomain] fields unchanged and with the same
    cookie entries in a possibly different order; so the domain strings, the
    first-party domain strings and the cookie names of the output are, up to
    order, exactly those held before sorting. *)
Theorem sorting_keeps_stored_strings (toLowerCase : string -> string)
        (groups : list CookieListForDomain.t) :
  (exists mid, Permutation groups mid /\
               Forall2 sameFields mid (sortGroups toLowerCase groups)) /\
  Permutation (map CookieListForDomain.domain (sortGroups toLowerCase groups))
              (map CookieListForDomain.domain groups) /\
  Permutation (map CookieListForDomain.firstPartyDomain (sortGroups toLowerCase groups))
              (map CookieListForDomain.firstPartyDomain groups) /\
  Permutation (flat_map cookieNames (sortGroups toLowerCase groups))
              (flat_map cookieNames groups).
Proof.
  assert (Hmid : Forall2 sameFields (JsArray.sort (compareDomain toLowerCase) groups)
                         (sortGroups toLowerCase groups)).
  { unfold sortGroups. apply Forall2_map_right. intros g. apply sortCookies_sameFields. }
  pose proof (sort_perm (compareDomain toLowerCase) groups) as Hperm.
  destruct (sameFields_domains _ _ Hmid) as [Hd Hf].
  repeat split.
  - exists (JsArray.sort (compareDomain toLowerCase) groups). split.
    + apply Permutation_sym. exact Hperm.
    + exact Hmid.
  - rewrite <- Hd. apply Permutation_map. exact Hperm.
  - rewrite <- Hf. apply Permutation_map. exact Hperm.
  - apply perm_trans with
      (flat_map cookieNames (JsArray.sort (compareDomain toLowerCase) groups)).
    + apply Permutation_sym. apply sameFields_names. exact Hmid.
    + apply Permutation_flat_map. exact Hperm.
Qed.

(** ** Collaborators that give the same answers *)

Section SameAnswers.
Variables toLowerCase1 toLowerCase2 : string -> string.
Variables getDomain1 getDomain2 : string -> option string.
Variables getCleanupTypeForCookie1 getCleanupTypeForCookie2 :
  string -> string -> CleanupType.
Variables getCleanupTypeForDomain1 getCleanupTypeForDomain2 : string -> CleanupType.
Variables getBadgeForCleanupType1 getBadgeForCleanupType2 : CleanupType -> BadgeInfo.

Hypothesis toLowerCase_same : forall s, toLowerCase1 s = toLowerCase2 s.
Hypothesis getDomain_same : forall d, getDomain1 d = getDomain2 d.
Hypothesis getCleanupTypeForCookie_same :
  forall d n, getCleanupTypeForCookie1 d n = getCleanupTypeForCookie2 d n.
Hypothesis getCleanupTypeForDomain_same :
  forall d, getCleanupTypeForDomain1 d = getCleanupTypeForDomain2 d.
Hypothesis getBadgeForCleanupType_same :
  forall t, getBadgeForCleanupType1 t = getBadgeForCleanupType2 t.

Lemma compareCaseInsensitive_same (a b : string) :
  compareCaseInsensitive toLowerCase1 a b = compareCaseInsensitive toLowerCase2 a b.
Proof.
  unfold compareCaseInsensitive. rewrite !toLowerCase_same. reflexivity.
Qed.

Lemma compareDomain_same (a b : CookieListForDomain.t) :
  compareDomain toLowerCase1 a b = compareDomain toLowerCase2 a b.
Proof.
  unfold compareDomain. rewrite !compareCaseInsensitive_same. reflexivity.
Qed.

Lemma compareCookieName_same (a b : CookieListCookie.t) :
  compareCookieName toLowerCase1 a b = compareCookieName toLowerCase2 a b.
Proof. apply compareCaseInsensitive_same. Qed.

Lemma addCookie_same (o : JsObject.t) (cookie : Cookies.Cookie) :
  addCookie getDomain1 getCleanupTypeForCookie1 getCleanupTypeForDomain1
            getBadgeForCleanupType1 o cookie =
  addCookie getDomain2 getCleanupTypeForCookie2 getCleanupTypeForDomain2
            getBadgeForCleanupType2 o cookie.
Proof.
  unfold addCookie, newGroup, mappedOf, firstPartyDomainOf.
  rewrite getDomain_same, getCleanupTypeForCookie_same,
    getCleanupTypeForDomain_same, !getBadgeForCleanupType_same.
  reflexivity.
Qed.

Lemma addCookies_same (cookies : list Cookies.Cookie) :
  forall o,
    addCookies getDomain1 getCleanupTypeForCookie1 getCleanupTypeForDomain1
               getBadgeForCleanupType1 o cookies =
    addCookies getDomain2 getCleanupTypeForCookie2 getCleanupTypeForDomain2
               getBadgeForCleanupType2 o cookies.
Proof.
  induction cookies as [|cookie rest IH]; intros o; simpl.
  - reflexivity.
  - rewrite addCookie_same.
    destruct (addCookie getDomain2 getCleanupTypeForCookie2 getCleanupTypeForDomain2
                        getBadgeForCleanupType2 o cookie); simpl.
    + apply IH.
    + reflexivity.
Qed.

End SameAnswers.

(** ** Own properties *)

Lemma lookupOwn_In (l : list (string * CookieListForDomain.t)) (k : string)
      (g : CookieListForDomain.t) :
  JsObject.lookupOwn l k = Some g -> In (k, g) l.
Proof.
  induction l as [|[k' g'] l IH]; simpl; [discriminate|].
  destruct (String.eqb_spec k k') as [->|Hne].
  - intros H. injection H as ->. left. reflexivity.
  - intros H. right. apply IH. exact H.
Qed.

Lemma lookupOwn_None (l : list (string * CookieListForDomain.t)) (k : string) :
  JsObject.lookupOwn l k = None <-> ~ In k (map fst l).
Proof.
  induction l as [|[k' g'] l IH]; simpl.
  - split; [intros _ []|reflexivity].
  - destruct (String.eqb_spec k k') as [->|Hne].
    + split; [discriminate|]. intros H. exfalso. apply H. left. reflexivity.
    + rewrite IH. split.
      * intros H [E|E]; [congruence|contradiction].
      * intros H E. apply H. right. exact E.
Qed.

Lemma lookupOwn_NoDup (l : list (string * CookieListForDomain.t)) (k : string)
      (g : CookieListForDomain.t) :
  NoDup (map fst l) -> In (k, g) l -> JsObject.lookupOwn l k = Some g.
Proof.
  induction l as [|[k' g'] l IH]; simpl; intros Hnd Hin; [contradiction|].
  inversion Hnd as [|? ? Hnotin Hnd']; subst.
  destruct Hin as [E|Hin].
  - injection E as -> ->. rewrite String.eqb_refl. reflexivity.
  - destruct (String.eqb_spec k k') as [->|Hne].
    + exfalso. apply Hnotin. apply in_map_iff. exists (k', g). split; [reflexivity|exact Hin].
    + apply IH; assumption.
Qed.

Lemma assignOwn_new (l : list (string * CookieListForDomain.t)) (k : string)
      (g : CookieListForDomain.t) :
  JsObject.lookupOwn l k = None -> JsObject.assignOwn l k g = (l ++ [(k, g)])%list.
Proof.
  induction l as [|[k' g'] l IH]; simpl; [reflexivity|].
  destruct (k =? k'); [discriminate|].
  intros H. rewrite IH by exact H. reflexivity.
Qed.

Lemma assignOwn_keys (l : list (string * CookieListForDomain.t)) (k : string)
      (g g0 : CookieListForDomain.t) :
  JsObject.lookupOwn l k = Some g0 ->
  map fst (JsObject.assignOwn l k g) = map fst l.
Proof.
  induction l as [|[k' g'] l IH]; simpl; [discriminate|].
  destruct (k =? k'); simpl; [reflexivity|].
  intros H. rewrite IH by exact H. reflexivity.
Qed.

Lemma assignOwn_In (l : list (string * CookieListForDomain.t)) (k k' : string)
      (g g' : CookieListForDomain.t) :
  In (k', g') (JsObject.assignOwn l k g) ->
  (k' = k /\ g' = g) \/ (k' <> k /\ In (k', g') l) \/ (k' = k /\ In (k', g') l).
Proof.
  induction l as [|[k0 g0] l IH]; simpl.
  - intros [E|[]]. injection E as <- <-. left. split; reflexivity.
  - destruct (String.eqb_spec k k0) as [->|Hne]; simpl.
    + intros [E|Hin].
      * injection E as <- <-. left. split; reflexivity.
      * destruct (String.eqb_spec k' k0) as [->|Hne'].
        -- right. right. split; [reflexivity|]. right. exact Hin.
        -- right. left. split; [exact Hne'|]. right. exact Hin.
    + intros [E|Hin].
      * injection E as <- <-. right. left. split; [congruence|]. left. reflexivity.
      * destruct (IH Hin) as [H|[[H1 H2]|[H1 H2]]].
        -- left. exact H.
        -- right. left. split; [exact H1|]. right. exact H2.
        -- right. right. split; [exact H1|]. right. exact H2.
Qed.

Lemma assignOwn_In_NoDup (l : list (string * CookieListForDomain.t)) (k k' : string)
      (g g' : CookieListForDomain.t) :
  NoDup (map fst l) -> In k (map fst l) ->
  In (k', g') (JsObject.assignOwn l k g) ->
  (k' = k /\ g' = g) \/ (k' <> k /\ In (k', g') l).
Proof.
  induction l as [|[k0 g0] l IH]; simpl; intros Hnd Hk; [contradiction|].
  inversion Hnd as [|? ? Hnotin Hnd']; subst.
  destruct (String.eqb_spec k k0) as [->|Hne]; simpl.
  - intros [E|Hin].
    + injection E as <- <-. left. split; reflexivity.
    + right. split; [|right; exact Hin].
      intros ->. apply Hnotin. apply in_map_iff. exists (k0, g'). split; [reflexivity|exact Hin].
  - destruct Hk as [E|Hk]; [congruence|].
    intros [E|Hin].
    + injection E as <- <-. right. split; [congruence|]. left. reflexivity.
    + destruct (IH Hnd' Hk Hin) as [H|[H1 H2]].
      * left. exact H.
      * right. split; [exact H1|]. right. exact H2.
Qed.

Lemma assignOwn_In_same (l : list (string * CookieListForDomain.t)) (k : string)
      (g : CookieListForDomain.t) :
  In (k, g) (JsObject.assignOwn l k g).
Proof.
  induction l as [|[k0 g0] l IH]; simpl.
  - left. reflexivity.
  - destruct (String.eqb_spec k k0) as [->|Hne]; simpl.
    + left. reflexivity.
    + right. exact IH.
Qed.

Lemma NoDup_app_iff_helper {A : Type} (l : list A) (x : A) :
  NoDup l -> ~ In x l -> NoDup (l ++ [x]).
Proof.
  intros Hnd Hx. induction Hnd as [|y l Hy Hnd IH]; simpl.
  - constructor; [intros []|constructor].
  - constructor.
    + intros Hin. apply in_app_or in Hin. destruct Hin as [Hin|[E|[]]].
      * contradiction.
      * apply Hx. left. symmetry. exact E.
    + apply IH. intros Hin. apply Hx. right. exact Hin.
Qed.

(** ** The loop on inputs where lookup key and insertion key coincide *)

Lemma plainDomain_raw (d : string) : plainDomain d = true -> rawDomainOf d = d.
Proof.
  unfold plainDomain, rawDomainOf. intros H.
  apply andb_true_iff in H. destruct H as [H _].
  apply negb_true_iff in H. rewrite H. reflexivity.
Qed.

Lemma plainDomain_inherited (d : string) :
  plainDomain d = true -> JsObject.getInherited d = JsObject.Undefined.
Proof.
  unfold plainDomain, JsObject.getInherited. intros H.
  apply andb_true_iff in H. destruct H as [_ H].
  apply negb_true_iff in H. rewrite H. reflexivity.
Qed.

Lemma plainDomain_not_proto (d : string) :
  plainDomain d = true -> (d =? "__proto__") = false.
Proof.
  unfold plainDomain. intros H.
  apply andb_true_iff in H. destruct H as [_ H].
  apply negb_true_iff in H.
  destruct (String.eqb_spec d "__proto__") as [->|Hne]; [|reflexivity].
  discriminate H.
Qed.

Lemma cookiesOfDomain_app (d : string) (cs : list Cookies.Cookie) (c : Cookies.Cookie) :
  cookiesOfDomain d (cs ++ [c]) =
  (cookiesOfDomain d cs ++ (if Cookies.domain c =? d then [c] else []))%list.
Proof.
  unfold cookiesOfDomain. rewrite filter_app. simpl.
  destruct (Cookies.domain c =? d); reflexivity.
Qed.

Lemma cookiesOfDomain_none (d : string) (cs : list Cookies.Cookie) :
  ~ In d (map Cookies.domain cs) -> cookiesOfDomain d cs = [].
Proof.
  unfold cookiesOfDomain. induction cs as [|c cs IH]; simpl; intros H; [reflexivity|].
  destruct (String.eqb_spec (Cookies.domain c) d) as [E|Hne].
  - exfalso. apply H. left. exact E.
  - apply IH. intros Hin. apply H. right. exact Hin.
Qed.

Section BucketFacts.
Variable getDomain : string -> option string.
Variable getCleanupTypeForCookie : string -> string -> CleanupType.
Variable getCleanupTypeForDomain : string -> CleanupType.
Variable getBadgeForCleanupType : CleanupType -> BadgeInfo.

Local Abbreviation step :=
  (addCookie getDomain getCleanupTypeForCookie
             getCleanupTypeForDomain getBadgeForCleanupType).
Local Abbreviation loop :=
  (addCookies getDomain getCleanupTypeForCookie
              getCleanupTypeForDomain getBadgeForCleanupType).
Local Abbreviation mapped := (mappedOf getCleanupTypeForCookie getBadgeForCleanupType).
Local Abbreviation bucket :=
  (groupFor getDomain getCleanupTypeForCookie
            getCleanupTypeForDomain getBadgeForCleanupType).
Local Abbreviation invariant :=
  (bucketInvariant getDomain getCleanupTypeForCookie
                   getCleanupTypeForDomain getBadgeForCleanupType).

Lemma groupFor_other (k : string) (cs : list Cookies.Cookie) (c : Cookies.Cookie) :
  Cookies.domain c <> k -> bucket k (cs ++ [c]) = bucket k cs.
Proof.
  intros Hne. unfold groupFor. rewrite cookiesOfDomain_app.
  destruct (String.eqb_spec (Cookies.domain c) k) as [E|_]; [contradiction|].
  rewrite app_nil_r. reflexivity.
Qed.

Lemma groupFor_push (cs : list Cookies.Cookie) (c : Cookies.Cookie) :
  CookieListForDomain.push (bucket (Cookies.domain c) cs) (mapped c) =
  bucket (Cookies.domain c) (cs ++ [c]).
Proof.
  unfold groupFor, CookieListForDomain.push. simpl.
  rewrite cookiesOfDomain_app, String.eqb_refl, map_app. reflexivity.
Qed.

Lemma groupFor_new (cs : list Cookies.Cookie) (c : Cookies.Cookie) :
  plainDomain (Cookies.domain c) = true ->
  ~ In (Cookies.domain c) (map Cookies.domain cs) ->
  newGroup getDomain getCleanupTypeForDomain getBadgeForCleanupType c (mapped c) =
  bucket (Cookies.domain c) (cs ++ [c]).
Proof.
  intros Hplain Hnew. unfold newGroup, groupFor.
  rewrite (plainDomain_raw _ Hplain).
  rewrite cookiesOfDomain_app, String.eqb_refl, (cookiesOfDomain_none _ _ Hnew).
  reflexivity.
Qed.

Lemma invariant_empty : invariant JsObject.empty [].
Proof.
  unfold bucketInvariant. simpl. repeat split.
  - constructor.
  - contradiction.
  - contradiction.
  - contradiction.
Qed.

Lemma addCookie_invariant (o : JsObject.t) (cs : list Cookies.Cookie)
      (c : Cookies.Cookie) :
  plainDomain (Cookies.domain c) = true ->
  invariant o cs ->
  exists o', step o c = Ok o' /\ invariant o' (cs ++ [c]).
Proof.
  intros Hplain (Hproto & Hnd & Hown & Hseen).
  unfold addCookie, JsObject.get. rewrite Hproto.
  destruct (JsObject.lookupOwn (JsObject.own o) (Cookies.domain c)) as [g|] eqn:Hlook.
  - (* the domain has its group: push *)
    simpl. eexists. split; [reflexivity|].
    pose proof (lookupOwn_In _ _ _ Hlook) as Hin.
    destruct (Hown _ _ Hin) as [-> _].
    rewrite groupFor_push.
    unfold bucketInvariant, JsObject.mutate. simpl.
    rewrite (assignOwn_keys _ _ _ _ Hlook).
    split; [exact Hproto|]. split; [exact Hnd|]. split.
    + intros k g Hkg.
      apply assignOwn_In_NoDup in Hkg; [|exact Hnd|].
      * destruct Hkg as [[-> ->]|[Hne Hkg]].
        -- split; [reflexivity|]. rewrite map_app. apply in_or_app. right. left. reflexivity.
        -- destruct (Hown _ _ Hkg) as [-> Hk]. split.
           ++ symmetry. apply groupFor_other. congruence.
           ++ rewrite map_app. apply in_or_app. left. exact Hk.
      * apply in_map_iff. exists (Cookies.domain c, bucket (Cookies.domain c) cs).
        split; [reflexivity|exact Hin].
    + intros c' Hc'. apply in_app_or in Hc'. destruct Hc' as [Hc'|[<-|[]]].
      * apply Hseen. exact Hc'.
      * apply in_map_iff. exists (Cookies.domain c, bucket (Cookies.domain c) cs).
        split; [reflexivity|exact Hin].
  - (* the domain is new: assign *)
    rewrite (plainDomain_inherited _ Hplain). simpl.
    eexists. split; [reflexivity|].
    assert (Hnew : ~ In (Cookies.domain c) (map Cookies.domain cs)).
    { intros Hin. apply in_map_iff in Hin. destruct Hin as [c' [E Hc']].
      apply Hseen in Hc'. rewrite E in Hc'.
      apply lookupOwn_None in Hlook. contradiction. }
    rewrite (groupFor_new _ _ Hplain Hnew).
    rewrite (plainDomain_raw _ Hplain).
    unfold JsObject.set. rewrite (plainDomain_not_proto _ Hplain).
    rewrite (assignOwn_new _ _ _ Hlook).
    unfold bucketInvariant. simpl.
    split; [exact Hproto|]. split; [|split].
    + rewrite map_app. simpl.
      apply NoDup_app_iff_helper; [exact Hnd|].
      apply lookupOwn_None. exact Hlook.
    + intros k g Hkg. apply in_app_or in Hkg. destruct Hkg as [Hkg|[E|[]]].
      * destruct (Hown _ _ Hkg) as [-> Hk]. split.
        -- symmetry. apply groupFor_other. intros E. apply Hnew. rewrite E. exact Hk.
        -- rewrite map_app. apply in_or_app. left. exact Hk.
      * injection E as <- <-. split; [reflexivity|].
        rewrite map_app. apply in_or_app. right. left. reflexivity.
    + intros c' Hc'. rewrite map_app. apply in_or_app.
      apply in_app_or in Hc'. destruct Hc' as [Hc'|[<-|[]]].
      * left. apply Hseen. exact Hc'.
      * right. left. reflexivity.
Qed.
End BucketFacts.

(** ** [Object.keys] and the list of groups *)

Lemma indexKeys_perm (ks : list string) :
  Permutation (map snd (JsObject.indexKeys ks) ++ filter JsObject.isNameKey ks) ks.
Proof.
  induction ks as [|k ks IH]; simpl.
  - apply perm_nil.
  - unfold JsObject.isNameKey at 1.
    destruct (JsString.arrayIndex k); simpl.
    + apply perm_skip. exact IH.
    + apply Permutation_sym. apply Permutation_cons_app.
      apply Permutation_sym. exact IH.
Qed.

Lemma keys_perm (o : JsObject.t) :
  Permutation (JsObject.keys o) (map fst (JsObject.own o)).
Proof.
  unfold JsObject.keys.
  apply perm_trans with
    (map snd (JsObject.indexKeys (map fst (JsObject.own o))) ++
     filter JsObject.isNameKey (map fst (JsObject.own o)))%list.
  - apply Permutation_app_tail. apply Permutation_map. apply sort_perm.
  - apply indexKeys_perm.
Qed.

Lemma mapGet_perm (o : JsObject.t) (ks ks' : list string) :
  Permutation ks ks' -> Permutation (JsObject.mapGet o ks) (JsObject.mapGet o ks').
Proof.
  induction 1 as [|k ks ks' Hp IH|k k' ks|ks ks' ks'' Hp1 IH1 Hp2 IH2]; simpl.
  - apply perm_nil.
  - destruct (JsObject.lookupOwn (JsObject.own o) k); [apply perm_skip|]; exact IH.
  - destruct (JsObject.lookupOwn (JsObject.own o) k),
             (JsObject.lookupOwn (JsObject.own o) k');
      try apply Permutation_refl. apply perm_swap.
  - eapply perm_trans; eassumption.
Qed.

Lemma mapGet_own (o : JsObject.t) (l : list (string * CookieListForDomain.t)) :
  NoDup (map fst (JsObject.own o)) ->
  incl l (JsObject.own o) ->
  JsObject.mapGet o (map fst l) = map snd l.
Proof.
  intros Hnd. induction l as [|[k g] l IH]; simpl; intros Hincl; [reflexivity|].
  rewrite (lookupOwn_NoDup _ k g Hnd) by (apply Hincl; left; reflexivity).
  rewrite IH; [reflexivity|].
  intros x Hx. apply Hincl. right. exact Hx.
Qed.

Lemma groupsOf_perm (o : JsObject.t) :
  NoDup (map fst (JsObject.own o)) ->
  Permutation (groupsOf o) (map snd (JsObject.own o)).
Proof.
  intros Hnd. unfold groupsOf.
  rewrite <- (mapGet_own o (JsObject.own o) Hnd (incl_refl _)).
  apply mapGet_perm. apply keys_perm.
Qed.

(** ** Every cookie lands in the bucket of its domain *)

Lemma filter_split_perm {A : Type} (f : A -> bool) (l : list A) :
  Permutation (filter f l ++ filter (fun x => negb (f x)) l) l.
Proof.
  induction l as [|x l IH]; simpl.
  - apply perm_nil.
  - destruct (f x); simpl.
    + apply perm_skip. exact IH.
    + apply Permutation_sym. apply Permutation_cons_app.
      apply Permutation_sym. exact IH.
Qed.

Lemma cookiesOfDomain_rest (k k' : string) (cs : list Cookies.Cookie) :
  k' <> k ->
  cookiesOfDomain k' (filter (fun c => negb (Cookies.domain c =? k)) cs) =
  cookiesOfDomain k' cs.
Proof.
  intros Hne. unfold cookiesOfDomain. induction cs as [|c cs IH]; simpl; [reflexivity|].
  destruct (String.eqb_spec (Cookies.domain c) k) as [E|Hck]; simpl.
  - destruct (String.eqb_spec (Cookies.domain c) k') as [E'|_]; [congruence|exact IH].
  - destruct (Cookies.domain c =? k'); [rewrite IH|]; auto.
Qed.

Lemma buckets_rest (k : string) (cs : list Cookies.Cookie) (ks : list string) :
  ~ In k ks ->
  flat_map (fun k' => cookiesOfDomain k' cs) ks =
  flat_map (fun k' => cookiesOfDomain k'
                        (filter (fun c => negb (Cookies.domain c =? k)) cs)) ks.
Proof.
  induction ks as [|k' ks IH]; simpl; intros Hk; [reflexivity|].
  rewrite cookiesOfDomain_rest.
  - rewrite IH; [reflexivity|]. intros Hin. apply Hk. right. exact Hin.
  - intros ->. apply Hk. left. reflexivity.
Qed.

Lemma buckets_perm (ks : list string) :
  NoDup ks ->
  forall cs, (forall c, In c cs -> In (Cookies.domain c) ks) ->
             Permutation (flat_map (fun k => cookiesOfDomain k cs) ks) cs.
Proof.
  induction 1 as [|k ks Hk Hnd IH]; intros cs Hcs; simpl.
  - destruct cs as [|c cs]; [apply perm_nil|].
    exfalso. apply (Hcs c). left. reflexivity.
  - apply perm_trans with
      (cookiesOfDomain k cs ++ filter (fun c => negb (Cookies.domain c =? k)) cs)%list.
    + apply Permutation_app_head.
      rewrite (buckets_rest k cs ks Hk).
      apply IH. intros c Hc. apply filter_In in Hc. destruct Hc as [Hc Hne].
      destruct (Hcs c Hc) as [E|Hin]; [|exact Hin].
      rewrite E, String.eqb_refl in Hne. discriminate.
    + apply filter_split_perm.
Qed.

Lemma allCookies_sameFields (l l' : list CookieListForDomain.t) :
  Forall2 sameFields l l' ->
  Permutation (flat_map CookieListForDomain.cookies l)
              (flat_map CookieListForDomain.cookies l').
Proof.
  induction 1 as [|g g' l l' Hg Hl IH]; simpl.
  - apply perm_nil.
  - apply Permutation_app; [|exact IH]. destruct Hg as (_ & _ & _ & Hc). exact Hc.
Qed.

Lemma sortGroups_allCookies (toLowerCase : string -> string)
      (groups : list CookieListForDomain.t) :
  Permutation (flat_map CookieListForDomain.cookies (sortGroups toLowerCase groups))
              (flat_map CookieListForDomain.cookies groups).
Proof.
  apply perm_trans with
    (flat_map CookieListForDomain.cookies
              (JsArray.sort (compareDomain toLowerCase) groups)).
  - apply Permutation_sym. apply allCookies_sameFields.
    unfold sortGroups. apply Forall2_map_right. intros g. apply sortCookies_sameFields.
  - apply Permutation_flat_map. apply sort_perm.
Qed.

Lemma sortGroups_In (toLowerCase : string -> string)
      (groups : list CookieListForDomain.t) (g : CookieListForDomain.t) :
  In g (sortGroups toLowerCase groups) <->
  exists g0, In g0 groups /\
             g = CookieListForDomain.sortCookies (compareCookieName toLowerCase) g0.
Proof.
  unfold sortGroups. rewrite in_map_iff. split.
  - intros [g0 [E Hin]]. exists g0. split; [|symmetry; exact E].
    apply sort_In in Hin. exact Hin.
  - intros [g0 [Hin E]]. exists g0. split; [symmetry; exact E|].
    apply sort_In. exact Hin.
Qed.

Lemma sortGroups_domains (toLowerCase : string -> string)
      (groups : list CookieListForDomain.t) :
  Permutation (map CookieListForDomain.domain (sortGroups toLowerCase groups))
              (map CookieListForDomain.domain groups).
Proof.
  unfold sortGroups. rewrite map_map. simpl.
  apply Permutation_map. apply sort_perm.
Qed.

Section PlainInputs.
Variable toLowerCase : string -> string.
Variable getDomain : string -> option string.
Variable getCleanupTypeForCookie : string -> string -> CleanupType.
Variable getCleanupTypeForDomain : string -> CleanupType.
Variable getBadgeForCleanupType : CleanupType -> BadgeInfo.

Local Abbreviation run :=
  (getCookieList toLowerCase getDomain getCleanupTypeForCookie
                 getCleanupTypeForDomain getBadgeForCleanupType).
Local Abbreviation loop :=
  (addCookies getDomain getCleanupTypeForCookie
              getCleanupTypeForDomain getBadgeForCleanupType).
Local Abbreviation mapped := (mappedOf getCleanupTypeForCookie getBadgeForCleanupType).
Local Abbreviation bucket :=
  (groupFor getDomain getCleanupTypeForCookie
            getCleanupTypeForDomain getBadgeForCleanupType).
Local Abbreviation invariant :=
  (bucketInvariant getDomain getCleanupTypeForCookie
                   getCleanupTypeForDomain getBadgeForCleanupType).

Lemma addCookies_invariant (rest : list Cookies.Cookie) :
  forall (o : JsObject.t) (seen : list Cookies.Cookie),
    (forall c, In c rest -> plainDomain (Cookies.domain c) = true) ->
    invariant o seen ->
    exists o', loop o rest = Ok o' /\ invariant o' (seen ++ rest).
Proof.
  induction rest as [|c rest IH]; intros o seen Hplain Hinv; simpl.
  - exists o. rewrite app_nil_r. split; [reflexivity|exact Hinv].
  - destruct (addCookie_invariant getDomain getCleanupTypeForCookie
                getCleanupTypeForDomain getBadgeForCleanupType o seen c)
      as [o1 [Hstep Hinv1]].
    + apply Hplain. left. reflexivity.
    + exact Hinv.
    + rewrite Hstep. simpl.
      destruct (IH o1 (seen ++ [c])) as [o' [Hloop Hinv']].
      * intros c' Hc'. apply Hplain. right. exact Hc'.
      * exact Hinv1.
      * exists o'. split; [exact Hloop|].
        rewrite <- app_assoc in Hinv'. exact Hinv'.
Qed.

Lemma own_cookies (cs : list Cookies.Cookie)
      (l : list (string * CookieListForDomain.t)) :
  (forall k g, In (k, g) l -> g = bucket k cs) ->
  flat_map CookieListForDomain.cookies (map snd l) =
  map mapped (flat_map (fun k => cookiesOfDomain k cs) (map fst l)).
Proof.
  induction l as [|[k g] l IH]; simpl; intros H; [reflexivity|].
  rewrite map_app, <- IH.
  - rewrite (H k g) by (left; reflexivity). reflexivity.
  - intros k' g' Hin. apply H. right. exact Hin.
Qed.

Lemma own_domains (cs : list Cookies.Cookie)
      (l : list (string * CookieListForDomain.t)) :
  (forall k g, In (k, g) l -> g = bucket k cs) ->
  map CookieListForDomain.domain (map snd l) = map fst l.
Proof.
  induction l as [|[k g] l IH]; simpl; intros H; [reflexivity|].
  rewrite IH.
  - rewrite (H k g) by (left; reflexivity). reflexivity.
  - intros k' g' Hin. apply H. right. exact Hin.
Qed.

Lemma inGroup_bucket (c : Cookies.Cookie) (k : string) (cs : list Cookies.Cookie) :
  inGroup c (CookieListForDomain.sortCookies (compareCookieName toLowerCase)
                                             (bucket k cs)) <->
  In c cs /\ Cookies.domain c = k.
Proof.
  unfold inGroup. simpl. rewrite in_map_iff. split.
  - intros [m [E Hm]]. apply sort_In in Hm. apply in_map_iff in Hm.
    destruct Hm as [c' [<- Hc']]. simpl in E. subst c'.
    apply filter_In in Hc'. destruct Hc' as [Hc' Hd].
    split; [exact Hc'|]. apply String.eqb_eq. exact Hd.
  - intros [Hc Hd]. exists (mapped c). split; [reflexivity|].
    apply sort_In. apply in_map. apply filter_In. split; [exact Hc|].
    apply String.eqb_eq. exact Hd.
Qed.

(** X9: on inputs whose domains have no leading dot and do not name a property
    inherited from [Object.prototype], [getCookieList] returns, and groups
    without loss: the cookie entries of the output are exactly the mapped
    input cookies, the groups have pairwise different domains, every group
    is the bucket of its domain, and every cookie is found in the group of
    its own domain and in no other. *)
Theorem getCookieList_plain_inputs (cookies : list Cookies.Cookie) :
  (forall c, In c cookies -> plainDomain (Cookies.domain c) = true) ->
  exists groups,
    run cookies = Ok groups /\
    Permutation (flat_map CookieListForDomain.cookies groups) (map mapped cookies) /\
    totalCookies groups = length cookies /\
    NoDup (map CookieListForDomain.domain groups) /\
    (forall g, In g groups ->
               sameFields (bucket (CookieListForDomain.domain g) cookies) g) /\
    (forall c, In c cookies ->
               exists g, In g groups /\
                         CookieListForDomain.domain g = Cookies.domain c /\
                         inGroup c g) /\
    (forall c g, In g groups -> inGroup c g ->
                 CookieListForDomain.domain g = Cookies.domain c).
Proof.
  intros Hplain.
  destruct (addCookies_invariant cookies JsObject.empty [] Hplain
              (invariant_empty getDomain getCleanupTypeForCookie
                 getCleanupTypeForDomain getBadgeForCleanupType))
    as [o [Hloop (Hproto & Hnd & Hown & Hseen)]].
  simpl in Hown, Hseen.
  assert (Hbucket : forall k g, In (k, g) (JsObject.own o) -> g = bucket k cookies).
  { intros k g Hin. apply (Hown k g Hin). }
  pose proof (groupsOf_perm o Hnd) as Hpre.
  assert (Hall : Permutation
                   (flat_map CookieListForDomain.cookies
                             (sortGroups toLowerCase (groupsOf o)))
                   (map mapped cookies)).
  { eapply perm_trans; [apply sortGroups_allCookies|].
    eapply perm_trans; [apply Permutation_flat_map; exact Hpre|].
    rewrite (own_cookies cookies _ Hbucket).
    apply Permutation_map. apply buckets_perm; [exact Hnd|exact Hseen]. }
  assert (Hgroup : forall g, In g (sortGroups toLowerCase (groupsOf o)) ->
                             exists k, In (k, bucket k cookies) (JsObject.own o) /\
                                       g = CookieListForDomain.sortCookies
                                             (compareCookieName toLowerCase)
                                             (bucket k cookies)).
  { intros g Hg. apply sortGroups_In in Hg. destruct Hg as [g0 [Hg0 ->]].
    apply (Permutation_in _ Hpre) in Hg0. apply in_map_iff in Hg0.
    destruct Hg0 as [[k g1] [E Hin]]. simpl in E. subst g1.
    pose proof (Hbucket k g0 Hin) as E. subst g0.
    exists k. split; [exact Hin|reflexivity]. }
  exists (sortGroups toLowerCase (groupsOf o)).
  split; [|split; [|split; [|split; [|split; [|split]]]]].
  - unfold getCookieList. rewrite Hloop. reflexivity.
  - exact Hall.
  - unfold totalCookies. rewrite <- flat_map_concat_map.
    rewrite (Permutation_length Hall). apply length_map.
  - apply (Permutation_NoDup (l := map fst (JsObject.own o))); [|exact Hnd].
    apply Permutation_sym.
    eapply perm_trans; [apply sortGroups_domains|].
    rewrite <- (own_domains cookies _ Hbucket).
    apply Permutation_map. exact Hpre.
  - intros g Hg. destruct (Hgroup g Hg) as [k [_ ->]]. simpl.
    apply sortCookies_sameFields.
  - intros c Hc.
    pose proof (Hseen c Hc) as Hk. apply in_map_iff in Hk.
    destruct Hk as [[k g0] [E Hin]]. simpl in E. subst k.
    pose proof (Hbucket _ g0 Hin) as E. subst g0.
    exists (CookieListForDomain.sortCookies (compareCookieName toLowerCase)
              (bucket (Cookies.domain c) cookies)).
    split; [|split].
    + apply sortGroups_In. eexists. split; [|reflexivity].
      apply (Permutation_in _ (Permutation_sym Hpre)).
      apply in_map_iff. eexists. split; [|exact Hin]. reflexivity.
    + reflexivity.
    + apply inGroup_bucket. split; [exact Hc|reflexivity].
  - intros c g Hg Hc. destruct (Hgroup g Hg) as [k [_ ->]].
    apply inGroup_bucket in Hc. destruct Hc as [_ Hd]. simpl. symmetry. exact Hd.
Qed.
End PlainInputs.

(** ** The first-party fallback *)

Lemma firstPartyDomainOf_fallback (getDomain : string -> option string)
      (rawDomain : string) :
  getDomain rawDomain = None -> firstPartyDomainOf getDomain rawDomain = rawDomain.
Proof. unfold firstPartyDomainOf. intros ->. reflexivity. Qed.

Lemma newGroup_fields (getDomain : string -> option string)
      (getCleanupTypeForDomain : string -> CleanupType)
      (getBadgeForCleanupType : CleanupType -> BadgeInfo)
      (cookie : Cookies.Cookie) (m : CookieListCookie.t) :
  let g := newGroup getDomain getCleanupTypeForDomain getBadgeForCleanupType cookie m in
  CookieListForDomain.domain g = Cookies.domain cookie /\
  CookieListForDomain.firstPartyDomain g =
    firstPartyDomainOf getDomain (rawDomainOf (Cookies.domain cookie)) /\
  CookieListForDomain.badge g =
    getBadgeForCleanupType (getCleanupTypeForDomain (rawDomainOf (Cookies.domain cookie))) /\
  CookieListForDomain.cookies g = [m].
Proof. simpl. repeat split. Qed.

Lemma mappedOf_badge (getCleanupTypeForCookie : string -> string -> CleanupType)
      (getBadgeForCleanupType : CleanupType -> BadgeInfo) (cookie : Cookies.Cookie) :
  CookieListCookie.badge (mappedOf getCleanupTypeForCookie getBadgeForCleanupType cookie) =
  getBadgeForCleanupType
    (getCleanupTypeForCookie (rawDomainOf (Cookies.domain cookie)) (Cookies.name cookie)).
Proof. reflexivity. Qed.

(** ** The function on concrete inputs *)

Section ConcreteInputs.
Variable toLowerCase : string -> string.
Variable getDomain : string -> option string.
Variable getCleanupTypeForCookie : string -> string -> CleanupType.
Variable getCleanupTypeForDomain : string -> CleanupType.
Variable getBadgeForCleanupType : CleanupType -> BadgeInfo.

Local Abbreviation run :=
  (getCookieList toLowerCase getDomain getCleanupTypeForCookie
                 getCleanupTypeForDomain getBadgeForCleanupType).
Local Abbreviation step :=
  (addCookie getDomain getCleanupTypeForCookie
             getCleanupTypeForDomain getBadgeForCleanupType).
Local Abbreviation loop :=
  (addCookies getDomain getCleanupTypeForCookie
              getCleanupTypeForDomain getBadgeForCleanupType).
Local Abbreviation mapped := (mappedOf getCleanupTypeForCookie getBadgeForCleanupType).
Local Abbreviation fresh :=
  (newGroup getDomain getCleanupTypeForDomain getBadgeForCleanupType).

(** C1, on the input [{domain: ".example.com", name: "sid"},
    {domain: ".example.com", name: "lang"}]: whatever the collaborators
    answer, [getCookieList] returns a single group that holds only the
    second cookie.  The output has one cookie entry for two input records:
    the first cookie is lost, because the second one is looked up under
    [".example.com"], is not found, and its new group is assigned to the
    key ["example.com"], over the group of the first. *)
Theorem getCookieList_drops_cookie :
  let cookies := [mkCookie ".example.com" "sid"; mkCookie ".example.com" "lang"] in
  exists groups,
    getCookieList toLowerCase getDomain getCleanupTypeForCookie
                  getCleanupTypeForDomain getBadgeForCleanupType cookies = Ok groups /\
    cookieNames_of_groups groups = [(".example.com", ["lang"])] /\
    totalCookies groups = 1 /\ length cookies = 2.
Proof.
  simpl. eexists. split; [reflexivity|]. repeat split.
Qed.

(** C2, on the input [{domain: "example.com", name: "a"},
    {domain: ".example.com", name: "b"}]: both domains are ["example.com"]
    once a leading dot is stripped, yet the two cookies do not end up in
    one group.  The output holds the second cookie and no group holds the
    first: the group of the first cookie is replaced when the second is
    processed. *)
Theorem getCookieList_same_raw_domain_not_grouped :
  let a := mkCookie "example.com" "a" in
  let b := mkCookie ".example.com" "b" in
  rawDomainOf (Cookies.domain a) = rawDomainOf (Cookies.domain b) /\
  exists groups,
    getCookieList toLowerCase getDomain getCleanupTypeForCookie
                  getCleanupTypeForDomain getBadgeForCleanupType [a; b] = Ok groups /\
    (exists g, In g groups /\ inGroup b g) /\
    (forall g, In g groups -> ~ inGroup a g).
Proof.
  simpl. split; [reflexivity|].
  eexists. split; [reflexivity|]. split.
  - eexists. split; [left; reflexivity|]. left. reflexivity.
  - intros g [<-|[]] [E|[]]. discriminate E.
Qed.

(** C5, on the input [{domain: ".example.com", name: "sid"},
    {domain: ".example.com", name: "lang"}]: the first cookie creates the
    group of the bucket ["example.com"], with its un-stripped domain, the
    resolved first-party domain and the classification of the raw domain;
    the second cookie of the same bucket is not appended to that group: it
    makes a new group that takes the place of the first one. *)
Theorem addCookie_replaces_group :
  let first := mkCookie ".example.com" "sid" in
  let second := mkCookie ".example.com" "lang" in
  exists o1 o2,
    addCookie getDomain getCleanupTypeForCookie getCleanupTypeForDomain
              getBadgeForCleanupType JsObject.empty first = Ok o1 /\
    addCookie getDomain getCleanupTypeForCookie getCleanupTypeForDomain
              getBadgeForCleanupType o1 second = Ok o2 /\
    JsObject.own o1 = [("example.com", fresh first (mapped first))] /\
    JsObject.own o2 = [("example.com", fresh second (mapped second))] /\
    CookieListForDomain.cookies (fresh second (mapped second)) = [mapped second] /\
    CookieListForDomain.push (fresh first (mapped first)) (mapped second) <>
    fresh second (mapped second).
Proof.
  simpl. eexists. eexists.
  split; [reflexivity|]. split; [reflexivity|].
  split; [reflexivity|]. split; [reflexivity|]. split; [reflexivity|].
  unfold CookieListForDomain.push, newGroup. simpl. intros E.
  apply (f_equal CookieListForDomain.cookies) in E. simpl in E. discriminate E.
Qed.

(** C10, on the input [{domain: "constructor", name: "a"}]: the domain has
    no leading dot, so lookup key and insertion key coincide; but
    [cookiesByDomain["constructor"]] is the function inherited from
    [Object.prototype], which is truthy and has no [cookies], and
    [getCookieList] throws instead of returning a group for the cookie. *)
Theorem getCookieList_inherited_property_throws :
  let cookie := mkCookie "constructor" "a" in
  JsString.startsWith (Cookies.domain cookie) "." = false /\
  rawDomainOf (Cookies.domain cookie) = Cookies.domain cookie /\
  getCookieList toLowerCase getDomain getCleanupTypeForCookie
                getCleanupTypeForDomain getBadgeForCleanupType [cookie] = TypeError.
Proof.
  simpl. repeat split.
Qed.
End ConcreteInputs.

Section UnresolvedDomain.
Variable toLowerCase : string -> string.
Variable getCleanupTypeForCookie : string -> string -> CleanupType.
Variable getCleanupTypeForDomain : string -> CleanupType.
Variable getBadgeForCleanupType : CleanupType -> BadgeInfo.

(** C6, on the input [{domain: ".localhost", name: "a"},
    {domain: ".localhost", name: "b"}] with a resolver that returns [null]:
    [getCookieList] does not throw and the group it returns has the raw
    domain ["localhost"] as its first-party domain, but the first cookie,
    whose raw domain failed resolution, is in no group of the output. *)
Theorem getCookieList_unresolved_cookie_missing :
  let a := mkCookie ".localhost" "a" in
  let b := mkCookie ".localhost" "b" in
  noDomain (rawDomainOf (Cookies.domain a)) = None /\
  exists groups,
    getCookieList toLowerCase noDomain getCleanupTypeForCookie
                  getCleanupTypeForDomain getBadgeForCleanupType [a; b] = Ok groups /\
    shape groups = [(".localhost", "localhost", ["b"])] /\
    (forall g, In g groups -> ~ inGroup a g).
Proof.
  simpl. split; [reflexivity|].
  eexists. split; [reflexivity|]. split; [reflexivity|].
  intros g [<-|[]] [E|[]]. discriminate E.
Qed.
End UnresolvedDomain.

(** ** The example of the specification *)

(** C3, as the specification words it: a single group whose [domain] field
    is ["example.com"].  The code does not return that. *)
Lemma example_domain_field_counterexample :
  ~ (exists g,
        exampleCookieList (fun _ => Some "example.com")
          [mkCookie ".example.com" "b"; mkCookie "example.com" "a"] = Ok [g] /\
        CookieListForDomain.domain g = "example.com" /\
        CookieListForDomain.firstPartyDomain g = "example.com" /\
        cookieNames g = ["a"; "b"]).
Proof.
  intros [g [Hrun [Hdomain _]]].
  vm_compute in Hrun. injection Hrun as <-. discriminate Hdomain.
Qed.

(** C3 (as amended): for the two cookie records
    [{domain: ".example.com", name: "b"}] and [{domain: "example.com", name: "a"}],
    in that order, with a first-party resolver that returns ["example.com"]
    for the raw domain of both, [getCookieList] returns exactly one group;
    its [domain] field is [".example.com"], the un-stripped domain of the
    first cookie, its [firstPartyDomain] is ["example.com"], and its cookies
    are the two cookies ordered by name, ["a"] then ["b"]. *)
Theorem getCookieList_example
        (getDomain : string -> option string)
        (getCleanupTypeForCookie : string -> string -> CleanupType)
        (getCleanupTypeForDomain : string -> CleanupType)
        (getBadgeForCleanupType : CleanupType -> BadgeInfo) :
  getDomain "example.com" = Some "example.com" ->
  exists g,
    getCookieList JsString.asciiToLowerCase getDomain getCleanupTypeForCookie
                  getCleanupTypeForDomain getBadgeForCleanupType
                  [mkCookie ".example.com" "b"; mkCookie "example.com" "a"] = Ok [g] /\
    CookieListForDomain.domain g = ".example.com" /\
    CookieListForDomain.firstPartyDomain g = "example.com" /\
    map CookieListCookie.cookie (CookieListForDomain.cookies g) =
      [mkCookie "example.com" "a"; mkCookie ".example.com" "b"] /\
    cookieNames g = ["a"; "b"].
Proof.
  intros Hresolve. eexists. split.
  - unfold getCookieList. simpl. reflexivity.
  - simpl. change (rawDomainOf ".example.com") with "example.com".
    unfold firstPartyDomainOf. rewrite Hresolve. repeat split.
Qed.

Lemma getCookieList_example_witness :
  (fun _ : string => Some "example.com") "example.com" = Some "example.com" /\
  exists g,
    exampleCookieList (fun _ => Some "example.com")
      [mkCookie ".example.com" "b"; mkCookie "example.com" "a"] = Ok [g] /\
    CookieListForDomain.domain g = ".example.com" /\
    CookieListForDomain.firstPartyDomain g = "example.com" /\
    map CookieListCookie.cookie (CookieListForDomain.cookies g) =
      [mkCookie "example.com" "a"; mkCookie ".example.com" "b"] /\
    cookieNames g = ["a"; "b"].
Proof.
  split; [reflexivity|].
  apply (getCookieList_example (fun _ => Some "example.com") cookieType domainType badgeOf).
  reflexivity.
Defined.

(** ** The sort order on concrete inputs *)

(** C4, read with the raw (stripped) domain as the tie-breaker: the groups
    of [".b.example.com"] and ["a.example.com"] share the first-party domain
    ["example.com"]; the code puts [".b.example.com"] first, because it
    compares the stored strings and ["."] sorts before ["a"], while the raw
    domains are in the order ["b.example.com"], ["a.example.com"]. *)
Lemma sorted_by_raw_domain_counterexample :
  exists groups,
    exampleCookieList lastTwoLabels
      [mkCookie ".b.example.com" "n"; mkCookie "a.example.com" "m"] = Ok groups /\
    map CookieListForDomain.domain groups = [".b.example.com"; "a.example.com"] /\
    map CookieListForDomain.firstPartyDomain groups = ["example.com"; "example.com"] /\
    ~ sortedByRawDomain JsString.asciiToLowerCase groups.
Proof.
  eexists. split; [vm_compute; reflexivity|].
  split; [reflexivity|]. split; [reflexivity|].
  intros [Hadj _].
  specialize (Hadj 0 _ _ eq_refl eq_refl).
  destruct Hadj as [H|[_ H]]; vm_compute in H; discriminate H.
Qed.

Lemma getCookieList_sorted_witness :
  exists groups,
    exampleCookieList lastTwoLabels
      [mkCookie "www.Example.org" "b"; mkCookie ".b.example.com" "n";
       mkCookie "a.example.com" "m"; mkCookie "www.Example.org" "A";
       mkCookie "localhost" "sid"] = Ok groups /\
    shape groups = [(".b.example.com", "example.com", ["n"]);
                    ("a.example.com", "example.com", ["m"]);
                    ("www.Example.org", "Example.org", ["A"; "b"]);
                    ("localhost", "localhost", ["sid"])] /\
    sortedByStoredDomain JsString.asciiToLowerCase groups.
Proof.
  eexists. split; [vm_compute; reflexivity|]. split; [reflexivity|].
  apply (getCookieList_sorted JsString.asciiToLowerCase lastTwoLabels
           cookieType domainType badgeOf
           [mkCookie "www.Example.org" "b"; mkCookie ".b.example.com" "n";
            mkCookie "a.example.com" "m"; mkCookie "www.Example.org" "A";
            mkCookie "localhost" "sid"]).
  vm_compute. reflexivity.
Defined.

Lemma getCookieList_plain_inputs_witness :
  exists groups,
    exampleCookieList lastTwoLabels
      [mkCookie "www.example.org" "b"; mkCookie "example.com" "n";
       mkCookie "www.example.org" "a"] = Ok groups /\
    totalCookies groups = 3.
Proof.
  destruct (getCookieList_plain_inputs JsString.asciiToLowerCase lastTwoLabels
              cookieType domainType badgeOf
              [mkCookie "www.example.org" "b"; mkCookie "example.com" "n";
               mkCookie "www.example.org" "a"]) as [groups [Hrun [_ [Htotal _]]]].
  - intros c [<-|[<-|[<-|[]]]]; reflexivity.
  - exists groups. split; [exact Hrun|exact Htotal].
Defined.


(** * Further properties *)

(** ** The comparators are consistent *)

Lemma ascii_compare_refl (a : ascii) : Ascii.compare a a = Eq.
Proof. unfold Ascii.compare. apply N.compare_refl. Qed.

Lemma ascii_compare_lt_trans (a b c : ascii) :
  Ascii.compare a b = Lt -> Ascii.compare b c = Lt -> Ascii.compare a c = Lt.
Proof.
  unfold Ascii.compare. rewrite !N.compare_lt_iff. apply N.lt_trans.
Qed.

Lemma string_compare_lt_trans (a : string) :
  forall b c, String.compare a b = Lt -> String.compare b c = Lt ->
              String.compare a c = Lt.
Proof.
  induction a as [|x a IH]; intros [|y b] [|z c]; simpl; try congruence.
  destruct (Ascii.compare x y) eqn:Exy; try discriminate;
    destruct (Ascii.compare y z) eqn:Eyz; try discriminate; intros Hab Hbc.
  - apply Ascii.compare_eq_iff in Exy, Eyz. subst.
    rewrite ascii_compare_refl. eapply IH; eassumption.
  - apply Ascii.compare_eq_iff in Exy. subst. rewrite Eyz. reflexivity.
  - apply Ascii.compare_eq_iff in Eyz. subst. rewrite Exy. reflexivity.
  - rewrite (ascii_compare_lt_trans _ _ _ Exy Eyz). reflexivity.
Qed.

Lemma string_compare_le_trans (a b c : string) :
  String.compare a b <> Gt -> String.compare b c <> Gt -> String.compare a c <> Gt.
Proof.
  intros Hab Hbc.
  destruct (String.compare a b) eqn:Eab; [| |congruence].
  - apply String.compare_eq_iff in Eab. subst. exact Hbc.
  - destruct (String.compare b c) eqn:Ebc; [| |congruence].
    + apply String.compare_eq_iff in Ebc. subst. rewrite Eab. discriminate.
    + rewrite (string_compare_lt_trans _ _ _ Eab Ebc). discriminate.
Qed.

Section ComparatorLaws.
Variable toLowerCase : string -> string.

Lemma compareCaseInsensitive_opp (a b : string) :
  compareCaseInsensitive toLowerCase b a = (- compareCaseInsensitive toLowerCase a b)%Z.
Proof.
  rewrite !compareCaseInsensitive_compare.
  rewrite (String.compare_antisym (toLowerCase a) (toLowerCase b)).
  destruct (String.compare (toLowerCase b) (toLowerCase a)); reflexivity.
Qed.

Lemma compareCaseInsensitive_le_trans (a b c : string) :
  (compareCaseInsensitive toLowerCase a b <= 0)%Z ->
  (compareCaseInsensitive toLowerCase b c <= 0)%Z ->
  (compareCaseInsensitive toLowerCase a c <= 0)%Z.
Proof.
  rewrite !compareCaseInsensitive_compare. intros Hab Hbc.
  assert (H : String.compare (toLowerCase a) (toLowerCase c) <> Gt).
  { apply string_compare_le_trans with (b := toLowerCase b).
    - destruct (String.compare (toLowerCase a) (toLowerCase b)); [discriminate|discriminate|lia].
    - destruct (String.compare (toLowerCase b) (toLowerCase c)); [discriminate|discriminate|lia]. }
  destruct (String.compare (toLowerCase a) (toLowerCase c)); [lia|lia|congruence].
Qed.

(** X1: [compareCaseInsensitive] is a three-way comparison of the
    lower-cased strings.  Its result is [-1], [0] or [1]; it is [0] exactly
    when the two strings are equal after lower-casing, and negative exactly
    when the lower-cased first string is below the second in code-unit
    order; swapping the arguments negates the result. *)
Theorem compareCaseInsensitive_three_way (a b : string) :
  (compareCaseInsensitive toLowerCase a b = -1 \/
   compareCaseInsensitive toLowerCase a b = 0 \/
   compareCaseInsensitive toLowerCase a b = 1)%Z /\
  (compareCaseInsensitive toLowerCase a b = 0%Z <-> toLowerCase a = toLowerCase b) /\
  ((compareCaseInsensitive toLowerCase a b < 0)%Z <->
   stringLt (toLowerCase a) (toLowerCase b)) /\
  compareCaseInsensitive toLowerCase b a = (- compareCaseInsensitive toLowerCase a b)%Z.
Proof.
  split; [|split; [|split]].
  - rewrite compareCaseInsensitive_compare.
    destruct (String.compare (toLowerCase a) (toLowerCase b)); auto.
  - apply compareCaseInsensitive_zero.
  - rewrite compareCaseInsensitive_compare. unfold stringLt, String.ltb.
    destruct (String.compare (toLowerCase a) (toLowerCase b));
      split; intros H; try reflexivity; try lia; discriminate.
  - apply compareCaseInsensitive_opp.
Qed.

(** X2: [compareCaseInsensitive] is transitive: if [a] does not sort after
    [b] and [b] does not sort after [c], then [a] does not sort after [c]. *)
Theorem compareCaseInsensitive_transitive (a b c : string) :
  (compareCaseInsensitive toLowerCase a b <= 0)%Z ->
  (compareCaseInsensitive toLowerCase b c <= 0)%Z ->
  (compareCaseInsensitive toLowerCase a c <= 0)%Z.
Proof. apply compareCaseInsensitive_le_trans. Qed.

Lemma compareDomain_opp (a b : CookieListForDomain.t) :
  compareDomain toLowerCase b a = (- compareDomain toLowerCase a b)%Z.
Proof.
  unfold compareDomain.
  rewrite (compareCaseInsensitive_opp (CookieListForDomain.firstPartyDomain a)
                                      (CookieListForDomain.firstPartyDomain b)).
  rewrite (compareCaseInsensitive_opp (CookieListForDomain.domain a)
                                      (CookieListForDomain.domain b)).
  destruct (compareCaseInsensitive toLowerCase
              (CookieListForDomain.firstPartyDomain a)
              (CookieListForDomain.firstPartyDomain b) =? 0)%Z eqn:E.
  - apply Z.eqb_eq in E. rewrite E. reflexivity.
  - apply Z.eqb_neq in E.
    destruct (- compareCaseInsensitive toLowerCase
                  (CookieListForDomain.firstPartyDomain a)
                  (CookieListForDomain.firstPartyDomain b) =? 0)%Z eqn:E'.
    + apply Z.eqb_eq in E'. lia.
    + reflexivity.
Qed.

Lemma compareCaseInsensitive_cycle (a b c : string) :
  let x := compareCaseInsensitive toLowerCase a b in
  let y := compareCaseInsensitive toLowerCase b c in
  let z := compareCaseInsensitive toLowerCase a c in
  ((x <= 0 -> y <= 0 -> z <= 0) /\ (z <= 0 -> - y <= 0 -> x <= 0) /\
   (- x <= 0 -> z <= 0 -> y <= 0) /\ (y <= 0 -> - z <= 0 -> - x <= 0) /\
   (- z <= 0 -> x <= 0 -> - y <= 0) /\ (- y <= 0 -> - x <= 0 -> - z <= 0))%Z.
Proof.
  simpl.
  rewrite <- (compareCaseInsensitive_opp a b), <- (compareCaseInsensitive_opp b c),
    <- (compareCaseInsensitive_opp a c).
  repeat split; apply compareCaseInsensitive_le_trans.
Qed.

Lemma compareDomain_le_trans (a b c : CookieListForDomain.t) :
  (compareDomain toLowerCase a b <= 0)%Z ->
  (compareDomain toLowerCase b c <= 0)%Z ->
  (compareDomain toLowerCase a c <= 0)%Z.
Proof.
  unfold compareDomain.
  pose proof (compareCaseInsensitive_cycle
                (CookieListForDomain.firstPartyDomain a)
                (CookieListForDomain.firstPartyDomain b)
                (CookieListForDomain.firstPartyDomain c)) as Hfp.
  pose proof (compareCaseInsensitive_le_trans
                (CookieListForDomain.domain a) (CookieListForDomain.domain b)
                (CookieListForDomain.domain c)) as Hd.
  simpl in Hfp.
  destruct (compareCaseInsensitive toLowerCase
              (CookieListForDomain.firstPartyDomain a)
              (CookieListForDomain.firstPartyDomain b) =? 0)%Z eqn:Eab;
    destruct (compareCaseInsensitive toLowerCase
                (CookieListForDomain.firstPartyDomain b)
                (CookieListForDomain.firstPartyDomain c) =? 0)%Z eqn:Ebc;
    destruct (compareCaseInsensitive toLowerCase
                (CookieListForDomain.firstPartyDomain a)
                (CookieListForDomain.firstPartyDomain c) =? 0)%Z eqn:Eac;
    simpl;
    repeat match goal with
           | H : (_ =? 0)%Z = true |- _ => apply Z.eqb_eq in H
           | H : (_ =? 0)%Z = false |- _ => apply Z.eqb_neq in H
           end;
    intros Hab Hbc; lia.
Qed.

(** X3: [compareDomain] is a consistent comparator, as
    [Array.prototype.sort] needs it: swapping the two groups negates the
    result, the order it induces is transitive, and two groups compare equal
    exactly when their first-party domains and their stored domains agree
    after lower-casing. *)
Theorem compareDomain_consistent (a b c : CookieListForDomain.t) :
  compareDomain toLowerCase b a = (- compareDomain toLowerCase a b)%Z /\
  ((compareDomain toLowerCase a b <= 0)%Z ->
   (compareDomain toLowerCase b c <= 0)%Z ->
   (compareDomain toLowerCase a c <= 0)%Z) /\
  (compareDomain toLowerCase a b = 0%Z <->
   toLowerCase (CookieListForDomain.firstPartyDomain a) =
   toLowerCase (CookieListForDomain.firstPartyDomain b) /\
   toLowerCase (CookieListForDomain.domain a) =
   toLowerCase (CookieListForDomain.domain b)).
Proof.
  split; [apply compareDomain_opp|]. split; [apply compareDomain_le_trans|].
  unfold compareDomain.
  destruct (compareCaseInsensitive toLowerCase
              (CookieListForDomain.firstPartyDomain a)
              (CookieListForDomain.firstPartyDomain b) =? 0)%Z eqn:E; simpl.
  - apply Z.eqb_eq in E. rewrite compareCaseInsensitive_zero.
    apply compareCaseInsensitive_zero in E. tauto.
  - apply Z.eqb_neq in E. rewrite <- compareCaseInsensitive_zero. tauto.
Qed.
End ComparatorLaws.

Lemma compareCaseInsensitive_transitive_witness :
  (compareCaseInsensitive JsString.asciiToLowerCase "Alpha" "beta" <= 0)%Z /\
  (compareCaseInsensitive JsString.asciiToLowerCase "beta" "GAMMA" <= 0)%Z /\
  (compareCaseInsensitive JsString.asciiToLowerCase "Alpha" "GAMMA" <= 0)%Z.
Proof.
  split; [vm_compute; discriminate|]. split; [vm_compute; discriminate|].
  apply (compareCaseInsensitive_transitive JsString.asciiToLowerCase "Alpha" "beta" "GAMMA").
  - vm_compute. discriminate.
  - vm_compute. discriminate.
Defined.

(** ** The loop on arbitrary inputs *)

Lemma assignOwn_NoDup (l : list (string * CookieListForDomain.t)) (k : string)
      (g : CookieListForDomain.t) :
  NoDup (map fst l) -> NoDup (map fst (JsObject.assignOwn l k g)).
Proof.
  intros Hnd.
  destruct (JsObject.lookupOwn l k) as [g0|] eqn:E.
  - rewrite (assignOwn_keys _ _ _ _ E). exact Hnd.
  - rewrite (assignOwn_new _ _ _ E), map_app. simpl.
    apply NoDup_app_iff_helper; [exact Hnd|]. apply lookupOwn_None. exact E.
Qed.

Lemma assignOwn_In_weak (l : list (string * CookieListForDomain.t)) (k k' : string)
      (g g' : CookieListForDomain.t) :
  In (k', g') (JsObject.assignOwn l k g) -> (k' = k /\ g' = g) \/ In (k', g') l.
Proof.
  intros H. destruct (assignOwn_In _ _ _ _ _ H) as [H1|[[_ H1]|[_ H1]]]; auto.
Qed.

Lemma assignOwn_cookies (l : list (string * CookieListForDomain.t)) (k : string)
      (g : CookieListForDomain.t) :
  Permutation
    (flat_map CookieListForDomain.cookies (map snd (JsObject.assignOwn l k g)) ++
     match JsObject.lookupOwn l k with
     | Some g0 => CookieListForDomain.cookies g0
     | None => []
     end)
    (CookieListForDomain.cookies g ++ flat_map CookieListForDomain.cookies (map snd l)).
Proof.
  induction l as [|[k' g'] l IH]; simpl.
  - rewrite !app_nil_r. apply Permutation_refl.
  - destruct (k =? k'); simpl.
    + rewrite <- app_assoc.
      apply Permutation_app_head. apply Permutation_app_comm.
    + rewrite <- app_assoc.
      eapply perm_trans; [apply Permutation_app_head; exact IH|].
      rewrite !app_assoc. apply Permutation_app_tail. apply Permutation_app_comm.
Qed.

Lemma assignOwn_push_cookies (l : list (string * CookieListForDomain.t)) (k : string)
      (g0 : CookieListForDomain.t) (m : CookieListCookie.t) :
  JsObject.lookupOwn l k = Some g0 ->
  Permutation
    (flat_map CookieListForDomain.cookies
              (map snd (JsObject.assignOwn l k (CookieListForDomain.push g0 m))))
    (m :: flat_map CookieListForDomain.cookies (map snd l)).
Proof.
  intros Hlook.
  pose proof (assignOwn_cookies l k (CookieListForDomain.push g0 m)) as H.
  rewrite Hlook in H. simpl in H.
  apply Permutation_app_inv_r with (l := CookieListForDomain.cookies g0).
  eapply perm_trans; [exact H|].
  rewrite <- app_assoc. simpl.
  eapply perm_trans; [apply Permutation_app_comm|].
  simpl. apply perm_skip. apply Permutation_refl.
Qed.

Lemma getInherited_value (k : string) :
  JsObject.getInherited k = JsObject.Other \/
  JsObject.getInherited k = JsObject.Undefined.
Proof.
  unfold JsObject.getInherited. destruct (JsObject.isObjectPrototypeName k); auto.
Qed.

Lemma getFromGroup_value (g : CookieListForDomain.t) (k : string) :
  JsObject.getFromGroup g k = JsObject.Other \/
  JsObject.getFromGroup g k = JsObject.Undefined \/
  exists s, JsObject.getFromGroup g k = JsObject.Str s.
Proof.
  unfold JsObject.getFromGroup.
  destruct (k =? "badge"); [auto|].
  destruct (k =? "domain"); [eauto|].
  destruct (k =? "firstPartyDomain"); [eauto|].
  destruct (k =? "cookies"); [auto|].
  destruct (getInherited_value k); auto.
Qed.

Section LoopFacts.
Variable getDomain : string -> option string.
Variable getCleanupTypeForCookie : string -> string -> CleanupType.
Variable getCleanupTypeForDomain : string -> CleanupType.
Variable getBadgeForCleanupType : CleanupType -> BadgeInfo.

Local Abbreviation step :=
  (addCookie getDomain getCleanupTypeForCookie
             getCleanupTypeForDomain getBadgeForCleanupType).
Local Abbreviation loop :=
  (addCookies getDomain getCleanupTypeForCookie
              getCleanupTypeForDomain getBadgeForCleanupType).
Local Abbreviation mapped := (mappedOf getCleanupTypeForCookie getBadgeForCleanupType).
Local Abbreviation fresh :=
  (newGroup getDomain getCleanupTypeForDomain getBadgeForCleanupType).
Local Abbreviation wellFormed :=
  (groupWellFormed getDomain getCleanupTypeForCookie
                   getCleanupTypeForDomain getBadgeForCleanupType).
Local Abbreviation invariant :=
  (loopInvariant getDomain getCleanupTypeForCookie
                 getCleanupTypeForDomain getBadgeForCleanupType).

(** The three ways an iteration can end without throwing. *)
Lemma addCookie_cases (o o' : JsObject.t) (c : Cookies.Cookie) :
  step o c = Ok o' ->
  (exists g, JsObject.lookupOwn (JsObject.own o) (Cookies.domain c) = Some g /\
             o' = {| JsObject.own :=
                       JsObject.assignOwn (JsObject.own o) (Cookies.domain c)
                                          (CookieListForDomain.push g (mapped c));
                     JsObject.proto := JsObject.proto o |}) \/
  (exists g, JsObject.lookupOwn (JsObject.own o) (Cookies.domain c) = None /\
             JsObject.proto o = Some g /\ Cookies.domain c = "__proto__" /\
             o' = {| JsObject.own := JsObject.own o;
                     JsObject.proto := Some (CookieListForDomain.push g (mapped c)) |}) \/
  (JsObject.lookupOwn (JsObject.own o) (Cookies.domain c) = None /\
   o' = JsObject.set o (rawDomainOf (Cookies.domain c)) (fresh c (mapped c))).
Proof.
  unfold addCookie, JsObject.get.
  destruct (JsObject.lookupOwn (JsObject.own o) (Cookies.domain c)) as [g|] eqn:Hlook.
  - simpl. intros H. injection H as <-. left. exists g. split; reflexivity.
  - destruct (JsObject.proto o) as [gp|] eqn:Hproto.
    + destruct (String.eqb_spec (Cookies.domain c) "__proto__") as [E|_].
      * simpl. intros H. injection H as <-. right. left. exists gp.
        repeat split. exact E.
      * destruct (getFromGroup_value gp (Cookies.domain c)) as [E|[E|[s E]]];
          rewrite E; simpl.
        -- discriminate.
        -- intros H. injection H as <-. right. right. split; reflexivity.
        -- destruct (JsString.truthy s); [discriminate|].
           intros H. injection H as <-. right. right. split; reflexivity.
    + destruct (getInherited_value (Cookies.domain c)) as [E|E]; rewrite E; simpl.
      * discriminate.
      * intros H. injection H as <-. right. right. split; reflexivity.
Qed.

Lemma wellFormed_more (k : string) (g : CookieListForDomain.t)
      (cs : list Cookies.Cookie) (c : Cookies.Cookie) :
  wellFormed k g cs -> wellFormed k g (cs ++ [c]).
Proof.
  intros (Hraw & Hfp & Hbadge & c0 & rest & Hcookies & Hc0 & Hrest & Hincl).
  repeat split; try assumption.
  exists c0, rest. repeat split; try assumption.
  apply incl_appl. exact Hincl.
Qed.

Lemma wellFormed_push (k : string) (g : CookieListForDomain.t)
      (cs : list Cookies.Cookie) (c : Cookies.Cookie) :
  Cookies.domain c = k ->
  wellFormed k g cs -> wellFormed k (CookieListForDomain.push g (mapped c)) (cs ++ [c]).
Proof.
  intros Hc (Hraw & Hfp & Hbadge & c0 & rest & Hcookies & Hc0 & Hrest & Hincl).
  unfold groupWellFormed. simpl. repeat split; try assumption.
  exists c0, (rest ++ [c]). repeat split.
  - rewrite Hcookies. simpl. rewrite map_app. reflexivity.
  - exact Hc0.
  - intros c' Hc'. apply in_app_or in Hc'. destruct Hc' as [Hc'|[<-|[]]].
    + apply Hrest. exact Hc'.
    + exact Hc.
  - intros c' Hc'. apply in_or_app. destruct Hc' as [E|Hc'].
    + left. apply Hincl. left. exact E.
    + apply in_app_or in Hc'. destruct Hc' as [Hc'|Hc'].
      * left. apply Hincl. right. exact Hc'.
      * right. exact Hc'.
Qed.

Lemma wellFormed_fresh (cs : list Cookies.Cookie) (c : Cookies.Cookie) :
  wellFormed (rawDomainOf (Cookies.domain c)) (fresh c (mapped c)) (cs ++ [c]).
Proof.
  unfold groupWellFormed, newGroup. simpl. repeat split.
  exists c, []. repeat split.
  - intros c' [].
  - intros c' [<-|[]]. apply in_or_app. right. left. reflexivity.
Qed.

Lemma invariant_start : invariant JsObject.empty [].
Proof.
  unfold loopInvariant. simpl. split; [constructor|]. split; [intros k g []|].
  split; [discriminate|]. exists []. apply perm_nil.
Qed.

Lemma addCookie_keeps_invariant (o o' : JsObject.t) (cs : list Cookies.Cookie)
      (c : Cookies.Cookie) :
  step o c = Ok o' -> invariant o cs -> invariant o' (cs ++ [c]).
Proof.
  intros Hstep (Hnd & Hown & Hproto & lost & Hperm).
  assert (Hperm' : forall l,
             Permutation l (mapped c :: ownCookies o ++ protoCookies o ++ lost) ->
             Permutation l (map mapped (cs ++ [c]))).
  { intros l Hl. rewrite map_app. simpl.
    eapply perm_trans; [exact Hl|].
    eapply perm_trans; [apply Permutation_cons_append|].
    apply Permutation_app_tail. exact Hperm. }
  destruct (addCookie_cases _ _ _ Hstep)
    as [[g [Hlook ->]]|[[g [Hlook [Hp [Hd ->]]]]|[Hlook ->]]].
  - (* pushed on an own group *)
    pose proof (lookupOwn_In _ _ _ Hlook) as Hin.
    unfold loopInvariant. simpl. split; [|split; [|split]].
    + apply assignOwn_NoDup. exact Hnd.
    + intros k g' Hkg. apply assignOwn_In_weak in Hkg.
      destruct Hkg as [[-> ->]|Hkg].
      * destruct (Hown _ _ Hin) as [Hne Hwf]. split; [exact Hne|].
        apply wellFormed_push; [reflexivity|exact Hwf].
      * destruct (Hown _ _ Hkg) as [Hne Hwf]. split; [exact Hne|].
        apply wellFormed_more. exact Hwf.
    + intros gp Hgp. apply wellFormed_more. apply Hproto. exact Hgp.
    + exists lost. apply Hperm'. unfold ownCookies, protoCookies. simpl.
      change (mapped c :: flat_map CookieListForDomain.cookies (map snd (JsObject.own o)) ++
                match JsObject.proto o with
                | Some g0 => CookieListForDomain.cookies g0
                | None => []
                end ++ lost)
        with ((mapped c :: flat_map CookieListForDomain.cookies (map snd (JsObject.own o))) ++
                match JsObject.proto o with
                | Some g0 => CookieListForDomain.cookies g0
                | None => []
                end ++ lost).
      apply Permutation_app_tail. apply assignOwn_push_cookies. exact Hlook.
  - (* pushed on the group that is the prototype *)
    unfold loopInvariant. simpl. split; [exact Hnd|]. split; [|split].
    + intros k g' Hkg. destruct (Hown _ _ Hkg) as [Hne Hwf]. split; [exact Hne|].
      apply wellFormed_more. exact Hwf.
    + intros gp Hgp. injection Hgp as <-.
      apply wellFormed_push; [exact Hd|]. apply Hproto. exact Hp.
    + exists lost. apply Hperm'. unfold ownCookies, protoCookies. simpl. rewrite Hp.
      rewrite <- !app_assoc. simpl.
      apply Permutation_sym.
      rewrite (app_assoc (flat_map CookieListForDomain.cookies (map snd (JsObject.own o)))
                         (CookieListForDomain.cookies g) (mapped c :: lost)).
      apply Permutation_cons_app. rewrite <- app_assoc. apply Permutation_refl.
  - (* a new group is assigned *)
    unfold JsObject.set.
    destruct (String.eqb_spec (rawDomainOf (Cookies.domain c)) "__proto__") as [E|Hne].
    + unfold loopInvariant. simpl. split; [exact Hnd|]. split; [|split].
      * intros k g' Hkg. destruct (Hown _ _ Hkg) as [Hne Hwf]. split; [exact Hne|].
        apply wellFormed_more. exact Hwf.
      * intros gp Hgp. injection Hgp as <-. rewrite <- E. apply wellFormed_fresh.
      * exists (protoCookies o ++ lost). apply Hperm'.
        unfold ownCookies, protoCookies. simpl.
        apply Permutation_sym. apply Permutation_cons_app. apply Permutation_refl.
    + unfold loopInvariant. simpl. split; [|split; [|split]].
      * apply assignOwn_NoDup. exact Hnd.
      * intros k g' Hkg. apply assignOwn_In_weak in Hkg.
        destruct Hkg as [[-> ->]|Hkg].
        -- split; [exact Hne|]. apply wellFormed_fresh.
        -- destruct (Hown _ _ Hkg) as [Hne' Hwf]. split; [exact Hne'|].
           apply wellFormed_more. exact Hwf.
      * intros gp Hgp. apply wellFormed_more. apply Hproto. exact Hgp.
      * exists (match JsObject.lookupOwn (JsObject.own o) (rawDomainOf (Cookies.domain c)) with
                | Some g0 => CookieListForDomain.cookies g0
                | None => []
                end ++ lost).
        apply Hperm'. unfold ownCookies, protoCookies. simpl.
        pose proof (assignOwn_cookies (JsObject.own o) (rawDomainOf (Cookies.domain c))
                      (fresh c (mapped c))) as Hassign.
        simpl in Hassign.
        eapply perm_trans;
          [|apply (Permutation_app_tail
                     (match JsObject.proto o with
                      | Some g0 => CookieListForDomain.cookies g0
                      | None => []
                      end ++ lost) Hassign)].
        rewrite <- !app_assoc. apply Permutation_app_head.
        rewrite !app_assoc. apply Permutation_app_tail. apply Permutation_app_comm.
Qed.

Lemma addCookies_keeps_invariant (rest : list Cookies.Cookie) :
  forall (o o' : JsObject.t) (seen : list Cookies.Cookie),
    loop o rest = Ok o' -> invariant o seen -> invariant o' (seen ++ rest).
Proof.
  induction rest as [|c rest IH]; intros o o' seen Hloop Hinv; simpl in Hloop.
  - injection Hloop as <-. rewrite app_nil_r. exact Hinv.
  - destruct (step o c) as [o1|] eqn:Hstep; simpl in Hloop; [|discriminate].
    pose proof (addCookie_keeps_invariant _ _ _ _ Hstep Hinv) as Hinv1.
    pose proof (IH _ _ _ Hloop Hinv1) as Hinv'.
    rewrite <- app_assoc in Hinv'. exact Hinv'.
Qed.
End LoopFacts.

Lemma addCookies_app (getDomain : string -> option string)
      (getCleanupTypeForCookie : string -> string -> CleanupType)
      (getCleanupTypeForDomain : string -> CleanupType)
      (getBadgeForCleanupType : CleanupType -> BadgeInfo)
      (l1 l2 : list Cookies.Cookie) :
  forall o,
    addCookies getDomain getCleanupTypeForCookie getCleanupTypeForDomain
               getBadgeForCleanupType o (l1 ++ l2) =
    bind (addCookies getDomain getCleanupTypeForCookie getCleanupTypeForDomain
                     getBadgeForCleanupType o l1)
         (fun o' => addCookies getDomain getCleanupTypeForCookie getCleanupTypeForDomain
                               getBadgeForCleanupType o' l2).
Proof.
  induction l1 as [|c l1 IH]; intros o; simpl; [reflexivity|].
  destruct (addCookie getDomain getCleanupTypeForCookie getCleanupTypeForDomain
                      getBadgeForCleanupType o c); simpl; [apply IH|reflexivity].
Qed.

Lemma sortGroups_rawDomains (toLowerCase : string -> string)
      (groups : list CookieListForDomain.t) :
  Permutation
    (map (fun g => rawDomainOf (CookieListForDomain.domain g))
         (sortGroups toLowerCase groups))
    (map (fun g => rawDomainOf (CookieListForDomain.domain g)) groups).
Proof.
  rewrite <- !(map_map CookieListForDomain.domain rawDomainOf).
  apply Permutation_map. apply sortGroups_domains.
Qed.

(** ** What every returned list of groups satisfies *)

Section Output.
Variable toLowerCase : string -> string.
Variable getDomain : string -> option string.
Variable getCleanupTypeForCookie : string -> string -> CleanupType.
Variable getCleanupTypeForDomain : string -> CleanupType.
Variable getBadgeForCleanupType : CleanupType -> BadgeInfo.

Local Abbreviation loop :=
  (addCookies getDomain getCleanupTypeForCookie
              getCleanupTypeForDomain getBadgeForCleanupType).
Local Abbreviation mapped := (mappedOf getCleanupTypeForCookie getBadgeForCleanupType).
Local Abbreviation wellFormed :=
  (groupWellFormed getDomain getCleanupTypeForCookie
                   getCleanupTypeForDomain getBadgeForCleanupType).
Local Abbreviation invariant :=
  (loopInvariant getDomain getCleanupTypeForCookie
                 getCleanupTypeForDomain getBadgeForCleanupType).

Lemma getCookieList_invariant (cookies : list Cookies.Cookie)
      (groups : list CookieListForDomain.t) :
  getCookieList toLowerCase getDomain getCleanupTypeForCookie
                getCleanupTypeForDomain getBadgeForCleanupType cookies = Ok groups ->
  exists o, invariant o cookies /\
            groups = sortGroups toLowerCase (groupsOf o) /\
            Permutation (groupsOf o) (map snd (JsObject.own o)).
Proof.
  intros Hrun. apply getCookieList_Ok in Hrun. destruct Hrun as [o [Hloop ->]].
  pose proof (addCookies_keeps_invariant getDomain getCleanupTypeForCookie
                getCleanupTypeForDomain getBadgeForCleanupType
                cookies JsObject.empty o [] Hloop
                (invariant_start getDomain getCleanupTypeForCookie
                   getCleanupTypeForDomain getBadgeForCleanupType)) as Hinv.
  simpl in Hinv. exists o. split; [exact Hinv|]. split; [reflexivity|].
  apply groupsOf_perm. apply Hinv.
Qed.

Lemma getCookieList_group (cookies : list Cookies.Cookie)
      (groups : list CookieListForDomain.t) (g : CookieListForDomain.t) :
  getCookieList toLowerCase getDomain getCleanupTypeForCookie
                getCleanupTypeForDomain getBadgeForCleanupType cookies = Ok groups ->
  In g groups ->
  exists k g0, k <> "__proto__" /\ wellFormed k g0 cookies /\
               g = CookieListForDomain.sortCookies (compareCookieName toLowerCase) g0.
Proof.
  intros Hrun Hg.
  destruct (getCookieList_invariant _ _ Hrun) as [o [(_ & Hown & _) [-> Hpre]]].
  apply sortGroups_In in Hg. destruct Hg as [g0 [Hg0 ->]].
  apply (Permutation_in _ Hpre) in Hg0. apply in_map_iff in Hg0.
  destruct Hg0 as [[k g1] [E Hin]]. simpl in E. subst g1.
  destruct (Hown _ _ Hin) as [Hne Hwf].
  exists k, g0. split; [exact Hne|]. split; [exact Hwf|reflexivity].
Qed.

(** X4: [getCookieList] never invents or duplicates a cookie entry.  When it
    returns, the cookie entries of all groups together with some entries
    that were dropped are exactly the input cookies, each paired with the
    badge of its own classification; so the output never has more entries
    than the input has records. *)
Theorem getCookieList_entries_from_input (cookies : list Cookies.Cookie)
        (groups : list CookieListForDomain.t) :
  getCookieList toLowerCase getDomain getCleanupTypeForCookie
                getCleanupTypeForDomain getBadgeForCleanupType cookies = Ok groups ->
  (exists dropped,
      Permutation (flat_map CookieListForDomain.cookies groups ++ dropped)
                  (map mapped cookies)) /\
  totalCookies groups <= length cookies.
Proof.
  intros Hrun.
  destruct (getCookieList_invariant _ _ Hrun)
    as [o [(_ & _ & _ & lost & Hperm) [-> Hpre]]].
  assert (Hall : Permutation
                   (flat_map CookieListForDomain.cookies
                             (sortGroups toLowerCase (groupsOf o)) ++
                    protoCookies o ++ lost)
                   (map mapped cookies)).
  { eapply perm_trans; [|exact Hperm].
    apply Permutation_app_tail.
    eapply perm_trans; [apply sortGroups_allCookies|].
    apply Permutation_flat_map. exact Hpre. }
  split.
  - exists (protoCookies o ++ lost). exact Hall.
  - unfold totalCookies. rewrite <- flat_map_concat_map.
    apply Permutation_length in Hall. rewrite length_app, length_map in Hall. lia.
Qed.

(** X5: every returned group is made the way the loop makes groups.  Its
    first-party domain and its badge are those of its raw domain (its stored
    domain with one leading dot stripped); it holds the cookie that created
    it, whose un-stripped domain is the group's stored domain; and every
    entry of the group is an input cookie, carrying the badge of that
    cookie's own raw domain and name, whose un-stripped domain is either the
    stored domain or the raw domain of the group. *)
Theorem getCookieList_group_structure (cookies : list Cookies.Cookie)
        (groups : list CookieListForDomain.t) (g : CookieListForDomain.t) :
  getCookieList toLowerCase getDomain getCleanupTypeForCookie
                getCleanupTypeForDomain getBadgeForCleanupType cookies = Ok groups ->
  In g groups ->
  CookieListForDomain.firstPartyDomain g =
    firstPartyDomainOf getDomain (rawDomainOf (CookieListForDomain.domain g)) /\
  CookieListForDomain.badge g =
    getBadgeForCleanupType
      (getCleanupTypeForDomain (rawDomainOf (CookieListForDomain.domain g))) /\
  (exists e, In e (CookieListForDomain.cookies g) /\
             Cookies.domain (CookieListCookie.cookie e) = CookieListForDomain.domain g) /\
  (forall e, In e (CookieListForDomain.cookies g) ->
             e = mapped (CookieListCookie.cookie e) /\
             In (CookieListCookie.cookie e) cookies /\
             (Cookies.domain (CookieListCookie.cookie e) = CookieListForDomain.domain g \/
              Cookies.domain (CookieListCookie.cookie e) =
                rawDomainOf (CookieListForDomain.domain g))).
Proof.
  intros Hrun Hg.
  destruct (getCookieList_group _ _ _ Hrun Hg)
    as (k & g0 & _ & (Hraw & Hfp & Hbadge & c0 & rest & Hcookies & Hc0 & Hrest & Hincl) & ->).
  simpl. rewrite Hraw. split; [exact Hfp|]. split; [exact Hbadge|]. split.
  - exists (mapped c0). split; [|exact Hc0].
    apply sort_In. rewrite Hcookies. left. reflexivity.
  - intros e He. apply sort_In in He. rewrite Hcookies in He.
    apply in_map_iff in He. destruct He as [c [<- Hc]]. simpl.
    split; [reflexivity|]. split; [apply Hincl; exact Hc|].
    destruct Hc as [<-|Hc].
    + left. exact Hc0.
    + right. apply Hrest. exact Hc.
Qed.

(** X6: the returned groups have pairwise different raw domains, hence
    pairwise different stored domains, and none of them has the raw domain
    ["__proto__"]. *)
Theorem getCookieList_distinct_raw_domains (cookies : list Cookies.Cookie)
        (groups : list CookieListForDomain.t) :
  getCookieList toLowerCase getDomain getCleanupTypeForCookie
                getCleanupTypeForDomain getBadgeForCleanupType cookies = Ok groups ->
  NoDup (map (fun g => rawDomainOf (CookieListForDomain.domain g)) groups) /\
  NoDup (map CookieListForDomain.domain groups) /\
  (forall g, In g groups -> rawDomainOf (CookieListForDomain.domain g) <> "__proto__").
Proof.
  intros Hrun.
  assert (Hraw : NoDup (map (fun g => rawDomainOf (CookieListForDomain.domain g)) groups)).
  { destruct (getCookieList_invariant _ _ Hrun) as [o [(Hnd & Hown & _) [-> Hpre]]].
    apply (Permutation_NoDup (l := map fst (JsObject.own o))); [|exact Hnd].
    apply Permutation_sym.
    eapply perm_trans; [apply sortGroups_rawDomains|].
    eapply perm_trans; [apply Permutation_map; exact Hpre|].
    rewrite map_map.
    rewrite (map_ext_in _ fst); [apply Permutation_refl|].
    intros [k g] Hin. simpl. destruct (Hown _ _ Hin) as [_ (Hk & _)]. exact Hk. }
  split; [exact Hraw|]. split.
  - rewrite <- (map_map CookieListForDomain.domain rawDomainOf) in Hraw.
    apply NoDup_map_inv in Hraw. exact Hraw.
  - intros g Hg.
    destruct (getCookieList_group _ _ _ Hrun Hg) as (k & g0 & Hne & (Hk & _) & ->).
    simpl. rewrite Hk. exact Hne.
Qed.
End Output.

(** ** When the loop throws *)

Lemma safeDomain_spec (d : string) :
  safeDomain d = true ->
  JsObject.getInherited d = JsObject.Undefined /\ (rawDomainOf d =? "__proto__") = false.
Proof.
  unfold safeDomain, JsObject.getInherited. intros H.
  apply andb_true_iff in H. destruct H as [H1 H2].
  apply negb_true_iff in H1, H2. rewrite H1. split; [reflexivity|exact H2].
Qed.

Section Throwing.
Variable toLowerCase : string -> string.
Variable getDomain : string -> option string.
Variable getCleanupTypeForCookie : string -> string -> CleanupType.
Variable getCleanupTypeForDomain : string -> CleanupType.
Variable getBadgeForCleanupType : CleanupType -> BadgeInfo.

Local Abbreviation step :=
  (addCookie getDomain getCleanupTypeForCookie
             getCleanupTypeForDomain getBadgeForCleanupType).
Local Abbreviation loop :=
  (addCookies getDomain getCleanupTypeForCookie
              getCleanupTypeForDomain getBadgeForCleanupType).

Lemma addCookie_safe (o : JsObject.t) (c : Cookies.Cookie) :
  safeDomain (Cookies.domain c) = true ->
  JsObject.proto o = None ->
  exists o', step o c = Ok o' /\ JsObject.proto o' = None.
Proof.
  intros Hsafe Hproto. destruct (safeDomain_spec _ Hsafe) as [Hinh Hraw].
  unfold addCookie, JsObject.get. rewrite Hproto.
  destruct (JsObject.lookupOwn (JsObject.own o) (Cookies.domain c)) as [g|]; simpl.
  - eexists. split; [reflexivity|]. simpl. exact Hproto.
  - rewrite Hinh. simpl. eexists. split; [reflexivity|].
    unfold JsObject.set. rewrite Hraw. simpl. exact Hproto.
Qed.

Lemma addCookies_safe (cookies : list Cookies.Cookie) :
  forall o,
    (forall c, In c cookies -> safeDomain (Cookies.domain c) = true) ->
    JsObject.proto o = None ->
    exists o', loop o cookies = Ok o' /\ JsObject.proto o' = None.
Proof.
  induction cookies as [|c cookies IH]; intros o Hsafe Hproto; simpl.
  - exists o. split; [reflexivity|exact Hproto].
  - destruct (addCookie_safe o c) as [o1 [Hstep Hproto1]].
    + apply Hsafe. left. reflexivity.
    + exact Hproto.
    + rewrite Hstep. simpl. apply IH; [|exact Hproto1].
      intros c' Hc'. apply Hsafe. right. exact Hc'.
Qed.

(** X7: [getCookieList] returns a list of groups, without throwing,
    whenever no cookie domain is the name of a property of
    [Object.prototype] (such as ["constructor"] or ["__proto__"]) and no
    cookie has the raw domain ["__proto__"]. *)
Theorem getCookieList_returns (cookies : list Cookies.Cookie) :
  (forall c, In c cookies -> safeDomain (Cookies.domain c) = true) ->
  exists groups,
    getCookieList toLowerCase getDomain getCleanupTypeForCookie
                  getCleanupTypeForDomain getBadgeForCleanupType cookies = Ok groups.
Proof.
  intros Hsafe.
  destruct (addCookies_safe cookies JsObject.empty Hsafe eq_refl) as [o [Hloop _]].
  unfold getCookieList. rewrite Hloop. simpl. eexists. reflexivity.
Qed.

(** X8: [getCookieList] throws a [TypeError] at the first cookie whose
    domain is the name of a property of [Object.prototype], unless an
    earlier cookie had that name as its raw domain (and thereby made it an
    own key); here the cookies before it are such that the loop gets past
    them, as in X7. *)
Theorem getCookieList_throws (before after : list Cookies.Cookie) (c : Cookies.Cookie) :
  (forall c', In c' before -> safeDomain (Cookies.domain c') = true) ->
  JsObject.isObjectPrototypeName (Cookies.domain c) = true ->
  (forall c', In c' before -> rawDomainOf (Cookies.domain c') <> Cookies.domain c) ->
  getCookieList toLowerCase getDomain getCleanupTypeForCookie
                getCleanupTypeForDomain getBadgeForCleanupType
                (before ++ c :: after) = TypeError.
Proof.
  intros Hsafe Hname Hfree.
  destruct (addCookies_safe before JsObject.empty Hsafe eq_refl) as [o [Hloop Hproto]].
  pose proof (addCookies_keeps_invariant getDomain getCleanupTypeForCookie
                getCleanupTypeForDomain getBadgeForCleanupType
                before JsObject.empty o [] Hloop
                (invariant_start getDomain getCleanupTypeForCookie
                   getCleanupTypeForDomain getBadgeForCleanupType)) as (_ & Hown & _).
  simpl in Hown.
  assert (Hlook : JsObject.lookupOwn (JsObject.own o) (Cookies.domain c) = None).
  { destruct (JsObject.lookupOwn (JsObject.own o) (Cookies.domain c)) as [g|] eqn:E;
      [|reflexivity].
    exfalso. apply lookupOwn_In in E.
    destruct (Hown _ _ E) as [_ (Hraw & _ & _ & c0 & rest & _ & Hc0 & _ & Hincl)].
    apply (Hfree c0).
    - apply Hincl. left. reflexivity.
    - rewrite Hc0. exact Hraw. }
  unfold getCookieList. rewrite addCookies_app, Hloop. simpl.
  unfold addCookie, JsObject.get. rewrite Hlook, Hproto.
  unfold JsObject.getInherited. rewrite Hname. reflexivity.
Qed.
End Throwing.

(** ** Domains with a leading dot: the last cookie of a domain wins *)

Lemma startsWith_dot (d : string) :
  JsString.startsWith d "." = true -> exists r, d = String "." r.
Proof.
  unfold JsString.startsWith. destruct d as [|a r]; [discriminate|].
  change (String.prefix "." (String a r))
    with (if Ascii.ascii_dec "." a then String.prefix EmptyString r else false).
  destruct (Ascii.ascii_dec "." a) as [<-|Hne]; [|discriminate].
  intros _. exists r. reflexivity.
Qed.

Lemma dotted_lookup (d : string) :
  JsString.startsWith d "." = true ->
  (d =? "__proto__") = false /\
  JsObject.getInherited d = JsObject.Undefined /\
  forall g, JsObject.getFromGroup g d = JsObject.Undefined.
Proof.
  intros H. destruct (startsWith_dot d H) as [r ->].
  split; [reflexivity|]. split; [reflexivity|]. intros g. reflexivity.
Qed.

Lemma lastOfRawDomain_app (k : string) (cs : list Cookies.Cookie) (c : Cookies.Cookie) :
  lastOfRawDomain k (cs ++ [c]) =
  if rawDomainOf (Cookies.domain c) =? k then Some c else lastOfRawDomain k cs.
Proof.
  unfold lastOfRawDomain. rewrite rev_app_distr. reflexivity.
Qed.

Lemma totalCookies_singletons (groups : list CookieListForDomain.t) :
  (forall g, In g groups -> length (CookieListForDomain.cookies g) = 1) ->
  totalCookies groups = length groups.
Proof.
  unfold totalCookies. induction groups as [|g groups IH]; simpl; intros H; [reflexivity|].
  rewrite length_app, (H g) by (left; reflexivity).
  rewrite IH; [reflexivity|]. intros g' Hg'. apply H. right. exact Hg'.
Qed.

Section Dotted.
Variable toLowerCase : string -> string.
Variable getDomain : string -> option string.
Variable getCleanupTypeForCookie : string -> string -> CleanupType.
Variable getCleanupTypeForDomain : string -> CleanupType.
Variable getBadgeForCleanupType : CleanupType -> BadgeInfo.

Local Abbreviation step :=
  (addCookie getDomain getCleanupTypeForCookie
             getCleanupTypeForDomain getBadgeForCleanupType).
Local Abbreviation loop :=
  (addCookies getDomain getCleanupTypeForCookie
              getCleanupTypeForDomain getBadgeForCleanupType).
Local Abbreviation mapped := (mappedOf getCleanupTypeForCookie getBadgeForCleanupType).
Local Abbreviation fresh :=
  (newGroup getDomain getCleanupTypeForDomain getBadgeForCleanupType).
Local Abbreviation invariant :=
  (dottedInvariant getDomain getCleanupTypeForCookie
                   getCleanupTypeForDomain getBadgeForCleanupType).

Lemma addCookie_dotted (o : JsObject.t) (cs : list Cookies.Cookie) (c : Cookies.Cookie) :
  dottedDomain (Cookies.domain c) = true ->
  invariant o cs ->
  exists o', step o c = Ok o' /\ invariant o' (cs ++ [c]).
Proof.
  intros Hdot (Hnd & Hown & Hseen).
  unfold dottedDomain in Hdot. apply andb_true_iff in Hdot.
  destruct Hdot as [Hdot Hraw]. apply negb_true_iff in Hraw.
  destruct (dotted_lookup _ Hdot) as (Hnp & Hinh & Hgrp).
  assert (Hlook : JsObject.lookupOwn (JsObject.own o) (Cookies.domain c) = None).
  { destruct (JsObject.lookupOwn (JsObject.own o) (Cookies.domain c)) as [g|] eqn:E;
      [|reflexivity].
    apply lookupOwn_In in E. destruct (Hown _ _ E) as [Hk _]. congruence. }
  assert (Hstep : step o c =
                  Ok (JsObject.set o (rawDomainOf (Cookies.domain c)) (fresh c (mapped c)))).
  { unfold addCookie, JsObject.get. rewrite Hlook.
    destruct (JsObject.proto o) as [gp|].
    - rewrite Hnp, Hgrp. reflexivity.
    - rewrite Hinh. reflexivity. }
  eexists. split; [exact Hstep|].
  assert (Hold : forall k g, In (k, g) (JsObject.own o) ->
                             k <> rawDomainOf (Cookies.domain c) ->
                             JsString.startsWith k "." = false /\ k <> "__proto__" /\
                             exists c', lastOfRawDomain k (cs ++ [c]) = Some c' /\
                                        g = fresh c' (mapped c')).
  { intros k g Hkg Hne. destruct (Hown _ _ Hkg) as (Hk & Hkp & c' & Hlast & Hg).
    split; [exact Hk|]. split; [exact Hkp|]. exists c'. split; [|exact Hg].
    rewrite lastOfRawDomain_app.
    destruct (String.eqb_spec (rawDomainOf (Cookies.domain c)) k) as [E|_];
      [congruence|exact Hlast]. }
  unfold JsObject.set.
  destruct (String.eqb_spec (rawDomainOf (Cookies.domain c)) "__proto__") as [E|Hne].
  - unfold dottedInvariant. simpl. split; [exact Hnd|]. split.
    + intros k g Hkg. apply Hold; [exact Hkg|].
      destruct (Hown _ _ Hkg) as (_ & Hkp & _). congruence.
    + intros c' Hc' Hne'. apply in_app_or in Hc'. destruct Hc' as [Hc'|[<-|[]]].
      * apply Hseen; assumption.
      * contradiction.
  - unfold dottedInvariant. simpl. split; [|split].
    + apply assignOwn_NoDup. exact Hnd.
    + intros k g Hkg.
      assert (Hcase : (k = rawDomainOf (Cookies.domain c) /\ g = fresh c (mapped c)) \/
                      (k <> rawDomainOf (Cookies.domain c) /\ In (k, g) (JsObject.own o))).
      { destruct (JsObject.lookupOwn (JsObject.own o) (rawDomainOf (Cookies.domain c)))
          as [g0|] eqn:E.
        - apply assignOwn_In_NoDup in Hkg; [exact Hkg|exact Hnd|].
          apply lookupOwn_In in E. apply in_map_iff. eexists. split; [|exact E]. reflexivity.
        - rewrite (assignOwn_new _ _ _ E) in Hkg. apply in_app_or in Hkg.
          destruct Hkg as [Hkg|[Ekg|[]]].
          + right. split; [|exact Hkg]. intros ->.
            apply lookupOwn_None in E. apply E. apply in_map_iff.
            eexists. split; [|exact Hkg]. reflexivity.
          + injection Ekg as <- <-. left. split; reflexivity. }
      destruct Hcase as [[-> ->]|[Hk Hin]].
      * split; [exact Hraw|]. split; [exact Hne|]. exists c. split; [|reflexivity].
        rewrite lastOfRawDomain_app, String.eqb_refl. reflexivity.
      * apply Hold; assumption.
    + intros c' Hc' Hne'.
      assert (Hkeys : forall k, In k (map fst (JsObject.own o)) ->
                                In k (map fst (JsObject.assignOwn (JsObject.own o)
                                                 (rawDomainOf (Cookies.domain c))
                                                 (fresh c (mapped c))))).
      { intros k Hk.
        destruct (JsObject.lookupOwn (JsObject.own o) (rawDomainOf (Cookies.domain c)))
          as [g0|] eqn:E.
        - rewrite (assignOwn_keys _ _ _ _ E). exact Hk.
        - rewrite (assignOwn_new _ _ _ E), map_app. apply in_or_app. left. exact Hk. }
      apply in_app_or in Hc'. destruct Hc' as [Hc'|[<-|[]]].
      * apply Hkeys. apply Hseen; assumption.
      * apply in_map_iff. eexists. split; [|apply assignOwn_In_same]. reflexivity.
Qed.

Lemma addCookies_dotted (rest : list Cookies.Cookie) :
  forall (o : JsObject.t) (seen : list Cookies.Cookie),
    (forall c, In c rest -> dottedDomain (Cookies.domain c) = true) ->
    invariant o seen ->
    exists o', loop o rest = Ok o' /\ invariant o' (seen ++ rest).
Proof.
  induction rest as [|c rest IH]; intros o seen Hdot Hinv; simpl.
  - exists o. rewrite app_nil_r. split; [reflexivity|exact Hinv].
  - destruct (addCookie_dotted o seen c) as [o1 [Hstep Hinv1]].
    + apply Hdot. left. reflexivity.
    + exact Hinv.
    + rewrite Hstep. simpl.
      destruct (IH o1 (seen ++ [c])) as [o' [Hloop Hinv']].
      * intros c' Hc'. apply Hdot. right. exact Hc'.
      * exact Hinv1.
      * exists o'. split; [exact Hloop|]. rewrite <- app_assoc in Hinv'. exact Hinv'.
Qed.

(** X10: when every cookie domain has exactly one leading dot,
    [getCookieList] returns, and every group it returns holds exactly one
    cookie: the last cookie of the input that has the group's raw domain.
    All earlier cookies of that domain are absent from the output.  Every
    input domain whose raw domain is not ["__proto__"] has its group. *)
Theorem getCookieList_dotted_last_wins (cookies : list Cookies.Cookie) :
  (forall c, In c cookies -> dottedDomain (Cookies.domain c) = true) ->
  exists groups,
    getCookieList toLowerCase getDomain getCleanupTypeForCookie
                  getCleanupTypeForDomain getBadgeForCleanupType cookies = Ok groups /\
    (forall g, In g groups ->
               exists c,
                 lastOfRawDomain (rawDomainOf (CookieListForDomain.domain g)) cookies
                   = Some c /\
                 CookieListForDomain.domain g = Cookies.domain c /\
                 CookieListForDomain.cookies g = [mapped c]) /\
    (forall c, In c cookies -> rawDomainOf (Cookies.domain c) <> "__proto__" ->
               exists g, In g groups /\
                         rawDomainOf (CookieListForDomain.domain g) =
                           rawDomainOf (Cookies.domain c)) /\
    totalCookies groups = length groups.
Proof.
  intros Hdot.
  assert (Hstart : invariant JsObject.empty []).
  { unfold dottedInvariant. simpl. split; [constructor|].
    split; [intros k g []|intros c []]. }
  destruct (addCookies_dotted cookies JsObject.empty [] Hdot Hstart)
    as [o [Hloop (Hnd & Hown & Hseen)]].
  simpl in Hown, Hseen.
  pose proof (groupsOf_perm o Hnd) as Hpre.
  assert (Hgroup : forall g, In g (sortGroups toLowerCase (groupsOf o)) ->
                             exists c,
                               lastOfRawDomain (rawDomainOf (CookieListForDomain.domain g))
                                               cookies = Some c /\
                               CookieListForDomain.domain g = Cookies.domain c /\
                               CookieListForDomain.cookies g = [mapped c]).
  { intros g Hg. apply sortGroups_In in Hg. destruct Hg as [g0 [Hg0 ->]].
    apply (Permutation_in _ Hpre) in Hg0. apply in_map_iff in Hg0.
    destruct Hg0 as [[k g1] [E Hin]]. simpl in E. subst g1.
    destruct (Hown _ _ Hin) as (_ & _ & c & Hlast & ->).
    exists c. simpl. split; [|split; reflexivity].
    pose proof (find_some _ _ Hlast) as [_ Hk]. apply String.eqb_eq in Hk.
    rewrite Hk. exact Hlast. }
  exists (sortGroups toLowerCase (groupsOf o)). split; [|split; [|split]].
  - unfold getCookieList. rewrite Hloop. reflexivity.
  - exact Hgroup.
  - intros c Hc Hne. pose proof (Hseen c Hc Hne) as Hk.
    apply in_map_iff in Hk. destruct Hk as [[k g0] [E Hin]]. simpl in E. subst k.
    exists (CookieListForDomain.sortCookies (compareCookieName toLowerCase) g0). split.
    + apply sortGroups_In. exists g0. split; [|reflexivity].
      apply (Permutation_in _ (Permutation_sym Hpre)).
      apply in_map_iff. eexists. split; [|exact Hin]. reflexivity.
    + simpl. destruct (Hown _ _ Hin) as (_ & _ & c' & Hlast & ->). simpl.
      pose proof (find_some _ _ Hlast) as [_ Hk]. apply String.eqb_eq in Hk. exact Hk.
  - apply totalCookies_singletons. intros g Hg.
    destruct (Hgroup g Hg) as (c & _ & _ & ->). reflexivity.
Qed.
End Dotted.

(** ** Sorting again changes nothing *)

Section SortedAgain.
Context {A : Type}.
Variable compareFn : A -> A -> Z.

Lemma insert_in_front (x : A) (l : list A) :
  HdRel (inOrder compareFn) x l -> JsArray.insert compareFn x l = x :: l.
Proof.
  intros H. destruct H as [|y l Hxy]; simpl; [reflexivity|].
  unfold inOrder in Hxy. apply Z.leb_le in Hxy. rewrite Hxy. reflexivity.
Qed.

Lemma sort_of_sorted (l : list A) :
  Sorted (inOrder compareFn) l -> JsArray.sort compareFn l = l.
Proof.
  induction 1 as [|x l Hs IH Hhd]; simpl; [reflexivity|].
  rewrite IH. apply insert_in_front. exact Hhd.
Qed.
End SortedAgain.

(** X11: the two sorting passes are idempotent: sorting the groups and
    their cookies a second time leaves the list exactly as the first
    sorting produced it. *)
Theorem sortGroups_idempotent (toLowerCase : string -> string)
        (groups : list CookieListForDomain.t) :
  sortGroups toLowerCase (sortGroups toLowerCase groups) = sortGroups toLowerCase groups.
Proof.
  unfold sortGroups at 1.
  assert (Hsorted : Sorted (inOrder (compareDomain toLowerCase))
                           (sortGroups toLowerCase groups)).
  { unfold sortGroups.
    apply Sorted_map with (R := inOrder (compareDomain toLowerCase)).
    - intros a b H. exact H.
    - apply sort_sorted. apply compareDomain_total. }
  rewrite (sort_of_sorted _ _ Hsorted).
  unfold sortGroups. rewrite map_map. apply map_ext. intros g.
  unfold CookieListForDomain.sortCookies. simpl.
  rewrite (sort_of_sorted (compareCookieName toLowerCase)).
  - reflexivity.
  - apply sort_sorted. apply compareCookieName_total.
Qed.

(** ** Substring search *)

Lemma string_append_assoc (a b c : string) :
  String.append (String.append a b) c = String.append a (String.append b c).
Proof.
  induction a as [|x a IH]; simpl; [reflexivity|]. rewrite IH. reflexivity.
Qed.

Lemma string_append_empty (a b : string) :
  String.append a b = EmptyString -> a = EmptyString /\ b = EmptyString.
Proof.
  destruct a; simpl; [intros ->; split; reflexivity|discriminate].
Qed.

Lemma prefix_occurs (n : string) :
  forall s, String.prefix n s = true <-> exists after, s = String.append n after.
Proof.
  induction n as [|a n IH]; intros [|b s]; simpl.
  - split; [intros _; exists EmptyString; reflexivity|reflexivity].
  - split; [intros _; exists (String b s); reflexivity|reflexivity].
  - split; [discriminate|intros [after H]; discriminate].
  - destruct (Ascii.ascii_dec a b) as [->|Hne].
    + rewrite IH. split; intros [after H]; exists after.
      * rewrite H. reflexivity.
      * injection H as H. exact H.
    + split; [discriminate|]. intros [after H]. injection H as E _. congruence.
Qed.

Lemma index_empty (n : string) :
  String.index 0 n EmptyString =
  match n with EmptyString => Some 0 | String _ _ => None end.
Proof. reflexivity. Qed.

Lemma index_cons (n : string) (b : ascii) (s : string) :
  String.index 0 n (String b s) =
  if String.prefix n (String b s) then Some 0
  else match String.index 0 n s with
       | Some k => Some (S k)
       | None => None
       end.
Proof. reflexivity. Qed.

Lemma index_occurs (n s : string) :
  (exists k, String.index 0 n s = Some k) <-> occursIn n s.
Proof.
  split.
  - induction s as [|b s IH].
    + rewrite index_empty. destruct n; intros [k H]; [|discriminate].
      exists EmptyString, EmptyString. reflexivity.
    + rewrite index_cons.
      destruct (String.prefix n (String b s)) eqn:Hp.
      * intros _. apply prefix_occurs in Hp. destruct Hp as [after H].
        exists EmptyString, after. exact H.
      * destruct (String.index 0 n s) as [k'|]; intros [k H]; [|discriminate].
        destruct IH as [before [after E]]; [exists k'; reflexivity|].
        exists (String b before), after. simpl. rewrite E. reflexivity.
  - intros [before [after E]]. revert s E.
    induction before as [|b before IH]; intros s E; simpl in E.
    + destruct s as [|c s].
      * symmetry in E. apply string_append_empty in E. destruct E as [-> _].
        exists 0. reflexivity.
      * rewrite index_cons.
        assert (Hp : String.prefix n (String c s) = true).
        { apply prefix_occurs. exists after. exact E. }
        rewrite Hp. exists 0. reflexivity.
    + subst s. rewrite index_cons.
      destruct (String.prefix n (String b (String.append before (String.append n after)))).
      * exists 0. reflexivity.
      * destruct (IH _ eq_refl) as [k Hk]. rewrite Hk. exists (S k). reflexivity.
Qed.

Lemma occursIn_trans (a b s : string) : occursIn a b -> occursIn b s -> occursIn a s.
Proof.
  intros [b1 [b2 ->]] [s1 [s2 ->]].
  exists (String.append s1 b1), (String.append b2 s2).
  rewrite !string_append_assoc. reflexivity.
Qed.

Lemma occursIn_nonempty (a b : string) :
  occursIn a b -> a <> EmptyString -> b <> EmptyString.
Proof.
  intros [b1 [b2 ->]] Ha E.
  apply string_append_empty in E. destruct E as [_ E].
  apply string_append_empty in E. destruct E as [E _]. contradiction.
Qed.

Lemma truthy_nonempty (s : string) : JsString.truthy s = true <-> s <> EmptyString.
Proof.
  unfold JsString.truthy. destruct (String.eqb_spec s EmptyString) as [->|Hne]; simpl.
  - split; [discriminate|congruence].
  - split; [intros _; exact Hne|reflexivity].
Qed.

Lemma indexOf_not_found (s needle : string) :
  (indexOf s needle =? -1)%Z = true <-> ~ occursIn needle s.
Proof.
  unfold indexOf. rewrite <- index_occurs.
  destruct (String.index 0 needle s) as [k|].
  - split.
    + intros H. apply Z.eqb_eq in H. lia.
    + intros H. exfalso. apply H. exists k. reflexivity.
  - split; [intros _ [k H]; discriminate|reflexivity].
Qed.

Section FilterFacts.
Variable toLowerCase : string -> string.
Variable trim : string -> string.
Variable appendPunycode : string -> string.

Lemma noneMatches_true (needle : string) (texts : list string) :
  noneMatches toLowerCase needle texts = true <->
  forall s, In s texts -> ~ occursIn needle (toLowerCase s).
Proof.
  unfold noneMatches. rewrite forallb_forall. split; intros H s Hs.
  - apply indexOf_not_found. apply H. exact Hs.
  - apply indexOf_not_found. apply H. exact Hs.
Qed.

Lemma noneMatches_false (needle : string) (texts : list string) :
  noneMatches toLowerCase needle texts = false <->
  exists s, In s texts /\ occursIn needle (toLowerCase s).
Proof.
  unfold noneMatches. induction texts as [|t texts IH]; simpl.
  - split; [discriminate|intros [s [[] _]]].
  - destruct (indexOf (toLowerCase t) needle =? -1)%Z eqn:E; simpl.
    + rewrite IH. apply indexOf_not_found in E. split.
      * intros [s [Hs Ho]]. exists s. split; [right; exact Hs|exact Ho].
      * intros [s [[<-|Hs] Ho]]; [contradiction|]. exists s. split; assumption.
    + split; [|reflexivity]. intros _. exists t. split; [left; reflexivity|].
      destruct (String.index 0 needle (toLowerCase t)) as [k|] eqn:Ek.
      * apply index_occurs. exists k. exact Ek.
      * unfold indexOf in E. rewrite Ek in E. discriminate E.
Qed.
End FilterFacts.

(** ** The search filter *)

Section FilterTheorems.
Variable toLowerCase : string -> string.
Variable trim : string -> string.
Variable appendPunycode : string -> string.

Lemma filterList_nth (value : string) (children : list ListItem) (i : nat)
      (child : ListItem) :
  nth_error children i = Some child ->
  nth_error (filterList toLowerCase trim value children) i =
  Some (toggleCollapsed child
          (if JsString.truthy (toLowerCase (trim value))
           then noneMatches toLowerCase (toLowerCase (trim value)) (searchable child)
           else false)).
Proof.
  intros H. unfold filterList.
  destruct (JsString.truthy (toLowerCase (trim value)));
    rewrite nth_error_map, H; reflexivity.
Qed.

(** X12: [filterList] keeps no memory of earlier searches.  Filtering with
    one search value after filtering with any other gives the same list as
    filtering the original children with the last value alone; it changes
    only the [collapsed] state of the children, never their number, order or
    texts. *)
Theorem filterList_last_search_wins (value earlier : string)
        (children : list ListItem) :
  filterList toLowerCase trim value (filterList toLowerCase trim earlier children) =
  filterList toLowerCase trim value children /\
  map searchable (filterList toLowerCase trim value children) = map searchable children.
Proof.
  unfold filterList. split.
  - destruct (JsString.truthy (toLowerCase (trim value)));
      destruct (JsString.truthy (toLowerCase (trim earlier)));
      rewrite map_map; apply map_ext; intros child; reflexivity.
  - destruct (JsString.truthy (toLowerCase (trim value)));
      rewrite map_map; reflexivity.
Qed.

(** X13: what [filterList] shows.  With an empty search (after trimming and
    lower-casing) every child is shown.  Otherwise a child is shown exactly
    when the search text occurs inside the lower-cased text of one of its
    searchable elements. *)
Theorem filterList_shows_matches (value : string) (children : list ListItem)
        (i : nat) (child : ListItem) :
  nth_error children i = Some child ->
  exists shown,
    nth_error (filterList toLowerCase trim value children) i = Some shown /\
    searchable shown = searchable child /\
    (toLowerCase (trim value) = EmptyString -> collapsed shown = false) /\
    (toLowerCase (trim value) <> EmptyString ->
     (collapsed shown = false <->
      exists s, In s (searchable child) /\
                occursIn (toLowerCase (trim value)) (toLowerCase s))).
Proof.
  intros Hchild. eexists. split; [apply filterList_nth; exact Hchild|].
  simpl. split; [reflexivity|]. split.
  - intros ->. reflexivity.
  - intros Hne. apply truthy_nonempty in Hne. rewrite Hne.
    apply noneMatches_false.
Qed.

(** X14: refining a search never brings back a hidden child.  If the search
    text of one search occurs inside the search text of another, every child
    that the first search hides is hidden by the second as well. *)
Theorem filterList_refined_search_hides_more (value refined : string)
        (children : list ListItem) (i : nat) (shown shown' : ListItem) :
  toLowerCase (trim value) <> EmptyString ->
  occursIn (toLowerCase (trim value)) (toLowerCase (trim refined)) ->
  nth_error (filterList toLowerCase trim value children) i = Some shown ->
  nth_error (filterList toLowerCase trim refined children) i = Some shown' ->
  collapsed shown = true -> collapsed shown' = true.
Proof.
  intros Hne Hocc Hshown Hshown' Hcollapsed.
  pose proof (occursIn_nonempty _ _ Hocc Hne) as Hne'.
  destruct (nth_error children i) as [child|] eqn:Hchild.
  - rewrite (filterList_nth value _ _ _ Hchild) in Hshown.
    rewrite (filterList_nth refined _ _ _ Hchild) in Hshown'.
    apply truthy_nonempty in Hne, Hne'. rewrite Hne in Hshown. rewrite Hne' in Hshown'.
    injection Hshown as <-. injection Hshown' as <-. simpl in *.
    apply noneMatches_true. intros s Hs Hin.
    rewrite noneMatches_true in Hcollapsed. apply (Hcollapsed s Hs).
    eapply occursIn_trans; eassumption.
  - exfalso. apply nth_error_None in Hchild.
    assert (Hlen : length (filterList toLowerCase trim value children) = length children).
    { unfold filterList. destruct (JsString.truthy (toLowerCase (trim value)));
        apply length_map. }
    assert (Hsome : nth_error (filterList toLowerCase trim value children) i <> None)
      by congruence.
    apply nth_error_Some in Hsome. lia.
Qed.

(** X15: what a search shows of the cookie list.  After the groups are
    rendered and filtered with a non-empty search text, the item of a group
    is shown exactly when the search text occurs in the lower-cased
    displayed domain of the group, or in the lower-cased name or value of
    one of its cookies. *)
Theorem showList_shows_matching_groups (value : string)
        (groups : list CookieListForDomain.t) (i : nat) (g : CookieListForDomain.t) :
  toLowerCase (trim value) <> EmptyString ->
  nth_error groups i = Some g ->
  exists shown,
    nth_error (showList toLowerCase trim appendPunycode value groups) i = Some shown /\
    (collapsed shown = false <->
     occursIn (toLowerCase (trim value))
              (toLowerCase (appendPunycode (CookieListForDomain.domain g))) \/
     exists e, In e (CookieListForDomain.cookies g) /\
               (occursIn (toLowerCase (trim value))
                         (toLowerCase (Cookies.name (CookieListCookie.cookie e))) \/
                occursIn (toLowerCase (trim value))
                         (toLowerCase (Cookies.value (CookieListCookie.cookie e))))).
Proof.
  intros Hne Hg. unfold showList. eexists. split.
  - apply filterList_nth. rewrite nth_error_map, Hg. reflexivity.
  - cbn [collapsed toggleCollapsed]. apply truthy_nonempty in Hne. rewrite Hne.
    rewrite noneMatches_false. cbn [searchable mapToDomainItem In]. split.
    + intros [s [[<-|Hs] Ho]]; [left; exact Ho|]. right.
      apply in_flat_map in Hs. destruct Hs as [e [He Hs]].
      exists e. split; [exact He|].
      destruct Hs as [<-|[<-|[]]]; [left|right]; exact Ho.
    + intros [Ho|[e [He [Ho|Ho]]]].
      * eexists. split; [left; reflexivity|exact Ho].
      * eexists. split; [|exact Ho]. right. apply in_flat_map.
        exists e. split; [exact He|]. left. reflexivity.
      * eexists. split; [|exact Ho]. right. apply in_flat_map.
        exists e. split; [exact He|]. right. left. reflexivity.
Qed.
End FilterTheorems.

(** ** The further properties on concrete inputs *)

Lemma getCookieList_entries_from_input_witness :
  exists groups,
    exampleCookieList lastTwoLabels
      [mkCookie ".example.com" "sid"; mkCookie ".example.com" "lang";
       mkCookie "example.com" "theme"] = Ok groups /\
    totalCookies groups <= 3.
Proof.
  eexists. split; [vm_compute; reflexivity|].
  refine (proj2 (getCookieList_entries_from_input
                   JsString.asciiToLowerCase lastTwoLabels cookieType domainType badgeOf
                   [mkCookie ".example.com" "sid"; mkCookie ".example.com" "lang";
                    mkCookie "example.com" "theme"] _ _)).
  vm_compute. reflexivity.
Defined.

Lemma getCookieList_group_structure_witness :
  exists groups g,
    exampleCookieList lastTwoLabels
      [mkCookie ".example.com" "sid"; mkCookie "example.com" "theme"] = Ok groups /\
    In g groups /\
    CookieListForDomain.firstPartyDomain g =
      firstPartyDomainOf lastTwoLabels (rawDomainOf (CookieListForDomain.domain g)).
Proof.
  eexists. eexists. split; [vm_compute; reflexivity|]. split; [left; reflexivity|].
  refine (proj1 (getCookieList_group_structure
                   JsString.asciiToLowerCase lastTwoLabels cookieType domainType badgeOf
                   [mkCookie ".example.com" "sid"; mkCookie "example.com" "theme"]
                   _ _ _ _)).
  - vm_compute. reflexivity.
  - left. reflexivity.
Defined.

Lemma getCookieList_distinct_raw_domains_witness :
  exists groups,
    exampleCookieList lastTwoLabels
      [mkCookie ".example.com" "sid"; mkCookie "www.example.com" "theme";
       mkCookie "example.com" "lang"] = Ok groups /\
    NoDup (map CookieListForDomain.domain groups).
Proof.
  eexists. split; [vm_compute; reflexivity|].
  refine (proj1 (proj2 (getCookieList_distinct_raw_domains
                          JsString.asciiToLowerCase lastTwoLabels cookieType domainType
                          badgeOf
                          [mkCookie ".example.com" "sid"; mkCookie "www.example.com" "theme";
                           mkCookie "example.com" "lang"] _ _))).
  vm_compute. reflexivity.
Defined.

Lemma getCookieList_returns_witness :
  exists groups,
    exampleCookieList lastTwoLabels
      [mkCookie ".example.com" "sid"; mkCookie "localhost" "theme";
       mkCookie ".constructor" "x"] = Ok groups.
Proof.
  apply (getCookieList_returns JsString.asciiToLowerCase lastTwoLabels
           cookieType domainType badgeOf).
  intros c [<-|[<-|[<-|[]]]]; reflexivity.
Defined.

Lemma getCookieList_throws_witness :
  exampleCookieList lastTwoLabels
    ([mkCookie "example.com" "a"; mkCookie ".localhost" "b"] ++
     mkCookie "constructor" "x" :: [mkCookie "other.org" "y"]) = TypeError.
Proof.
  apply (getCookieList_throws JsString.asciiToLowerCase lastTwoLabels
           cookieType domainType badgeOf).
  - intros c [<-|[<-|[]]]; reflexivity.
  - reflexivity.
  - intros c [<-|[<-|[]]] E; vm_compute in E; discriminate E.
Defined.

Lemma getCookieList_dotted_last_wins_witness :
  exists groups,
    exampleCookieList lastTwoLabels
      [mkCookie ".example.com" "sid"; mkCookie ".other.org" "x";
       mkCookie ".example.com" "lang"] = Ok groups /\
    totalCookies groups = length groups.
Proof.
  destruct (getCookieList_dotted_last_wins JsString.asciiToLowerCase lastTwoLabels
              cookieType domainType badgeOf
              [mkCookie ".example.com" "sid"; mkCookie ".other.org" "x";
               mkCookie ".example.com" "lang"])
    as [groups [Hrun [_ [_ Htotal]]]].
  - intros c [<-|[<-|[<-|[]]]]; reflexivity.
  - exists groups. split; [exact Hrun|exact Htotal].
Defined.

Lemma filterList_shows_matches_witness :
  exists shown,
    nth_error (filterList JsString.asciiToLowerCase asciiTrim "  Sid "
                 [ {| searchable := ["example.com"; "SID"; "v"]; collapsed := true |} ])
              0 = Some shown /\
    searchable shown = ["example.com"; "SID"; "v"].
Proof.
  destruct (filterList_shows_matches JsString.asciiToLowerCase asciiTrim "  Sid "
              [ {| searchable := ["example.com"; "SID"; "v"]; collapsed := true |} ]
              0 {| searchable := ["example.com"; "SID"; "v"]; collapsed := true |})
    as [shown [Hshown [Htexts _]]].
  - reflexivity.
  - exists shown. split; [exact Hshown|exact Htexts].
Defined.

Lemma filterList_refined_search_hides_more_witness :
  collapsed {| searchable := ["example.com"; "lang"; "en"]; collapsed := true |} = true.
Proof.
  apply (filterList_refined_search_hides_more JsString.asciiToLowerCase asciiTrim
           "si" " SID "
           [ {| searchable := ["example.com"; "lang"; "en"]; collapsed := false |} ]
           0
           {| searchable := ["example.com"; "lang"; "en"]; collapsed := true |}
           {| searchable := ["example.com"; "lang"; "en"]; collapsed := true |}).
  - vm_compute. discriminate.
  - exists EmptyString, "d". vm_compute. reflexivity.
  - vm_compute. reflexivity.
  - vm_compute. reflexivity.
  - reflexivity.
Defined.

Lemma showList_shows_matching_groups_witness :
  exists shown,
    nth_error (exampleShowList " LANG"
                 [ {| CookieListForDomain.badge := badgeOf STARTUP;
                      CookieListForDomain.domain := ".example.com";
                      CookieListForDomain.firstPartyDomain := "example.com";
                      CookieListForDomain.cookies :=
                        [ {| CookieListCookie.badge := badgeOf LEAVE;
                             CookieListCookie.cookie := mkCookie ".example.com" "lang" |} ]
                   |} ]) 0 = Some shown.
Proof.
  destruct (showList_shows_matching_groups JsString.asciiToLowerCase asciiTrim
              (fun d => d) " LANG"
              [ {| CookieListForDomain.badge := badgeOf STARTUP;
                   CookieListForDomain.domain := ".example.com";
                   CookieListForDomain.firstPartyDomain := "example.com";
                   CookieListForDomain.cookies :=
                     [ {| CookieListCookie.badge := badgeOf LEAVE;
                          CookieListCookie.cookie := mkCookie ".example.com" "lang" |} ]
                |} ] 0
              {| CookieListForDomain.badge := badgeOf STARTUP;
                 CookieListForDomain.domain := ".example.com";
                 CookieListForDomain.firstPartyDomain := "example.com";
                 CookieListForDomain.cookies :=
                   [ {| CookieListCookie.badge := badgeOf LEAVE;
                        CookieListCookie.cookie := mkCookie ".example.com" "lang" |} ]
              |}) as [shown [Hshown _]].
  - vm_compute. discriminate.
  - reflexivity.
  - exists shown. exact Hshown.
Defined.

(** ** The order of the output does not depend on the order of the keys *)

Section UniqueOrder.
Context {A : Type}.
Variable R : A -> A -> Prop.
Hypothesis R_trans : forall a b c, R a b -> R b c -> R a c.

Lemma Sorted_all_after (x : A) (l : list A) :
  Sorted R (x :: l) -> forall y, In y l -> R x y.
Proof.
  revert x. induction l as [|z l IH]; intros x Hs y Hy; [contradiction|].
  inversion Hs as [|? ? Hs' Hhd]; subst.
  inversion Hhd as [|? ? Hxz]; subst.
  destruct Hy as [<-|Hy]; [exact Hxz|].
  apply R_trans with z; [exact Hxz|]. apply IH; assumption.
Qed.

Lemma Sorted_unique (l1 : list A) :
  forall l2,
    (forall a b, In a l1 -> In b l1 -> R a b -> R b a -> a = b) ->
    Sorted R l1 -> Sorted R l2 -> Permutation l1 l2 -> l1 = l2.
Proof.
  induction l1 as [|x l1 IH]; intros l2 Hanti Hs1 Hs2 Hperm.
  - apply Permutation_nil in Hperm. symmetry. exact Hperm.
  - destruct l2 as [|y l2].
    + apply Permutation_sym, Permutation_nil in Hperm. discriminate.
    + assert (Exy : x = y).
      { assert (Hy : In y (x :: l1)).
        { apply (Permutation_in _ (Permutation_sym Hperm)). left. reflexivity. }
        assert (Hx : In x (y :: l2)).
        { apply (Permutation_in _ Hperm). left. reflexivity. }
        destruct Hy as [E|Hy]; [exact E|].
        destruct Hx as [E|Hx]; [symmetry; exact E|].
        apply Hanti.
        - left. reflexivity.
        - right. exact Hy.
        - apply (Sorted_all_after _ _ Hs1). exact Hy.
        - apply (Sorted_all_after _ _ Hs2). exact Hx. }
      subst y. f_equal. apply IH.
      * intros a b Ha Hb. apply Hanti; right; assumption.
      * inversion Hs1; assumption.
      * inversion Hs2; assumption.
      * apply Permutation_cons_inv with (a := x). exact Hperm.
Qed.
End UniqueOrder.

(** X18: the returned order is fixed by the groups alone whenever no two
    different groups compare equal.  For two arrangements of the same
    groups, in which groups that [compareDomain] cannot tell apart are
    equal, the two sorting passes produce the same list; so the order in
    which [Object.keys] lists the domains then has no effect on the result. *)
Theorem sortGroups_order_independent (toLowerCase : string -> string)
        (groups groups' : list CookieListForDomain.t) :
  Permutation groups groups' ->
  (forall a b, In a groups -> In b groups ->
               compareDomain toLowerCase a b = 0%Z -> a = b) ->
  sortGroups toLowerCase groups = sortGroups toLowerCase groups'.
Proof.
  intros Hperm Hties. unfold sortGroups. f_equal.
  apply Sorted_unique with (R := inOrder (compareDomain toLowerCase)).
  - intros a b c. apply compareDomain_le_trans.
  - intros a b Ha Hb Hab Hba. apply Hties.
    + apply sort_In in Ha. exact Ha.
    + apply sort_In in Hb. exact Hb.
    + unfold inOrder in Hab, Hba. rewrite (compareDomain_opp toLowerCase a b) in Hba. lia.
  - apply sort_sorted. apply compareDomain_total.
  - apply sort_sorted. apply compareDomain_total.
  - eapply perm_trans; [apply sort_perm|].
    eapply perm_trans; [exact Hperm|]. apply Permutation_sym. apply sort_perm.
Qed.

Lemma sortGroups_order_independent_witness :
  sortGroups JsString.asciiToLowerCase
    [groupFor lastTwoLabels cookieType domainType badgeOf "b.example.com" [];
     groupFor lastTwoLabels cookieType domainType badgeOf "a.example.com" []] =
  sortGroups JsString.asciiToLowerCase
    [groupFor lastTwoLabels cookieType domainType badgeOf "a.example.com" [];
     groupFor lastTwoLabels cookieType domainType badgeOf "b.example.com" []].
Proof.
  apply sortGroups_order_independent.
  - apply perm_swap.
  - intros a b [<-|[<-|[]]] [<-|[<-|[]]] E; try reflexivity;
      vm_compute in E; discriminate E.
Defined.

(** ** The rule dialog *)

Section RuleDialogFacts.
Variable toLowerCase : string -> string.
Variable trim : string -> string.
Variable isValidExpression : string -> bool.
Variable hasExactRule : string -> bool.

(** X16: an edited rule never silently replaces an existing one.  In an
    editable dialog that was opened with an expression, whenever choosing a
    cleanup type reports a confirmation at once, the reported expression is
    the trimmed, lower-cased text of the input, is not empty, is a valid
    expression, and has no exact rule yet; the flag reported is the state of
    the check box.  (An expression with an exact rule opens the replace
    confirmation instead.) *)
Theorem selectRule_confirms_only_new_valid (props : RuleDialogProps)
        (checked : bool) (inputValue e0 : string) (type : CleanupType)
        (t : option CleanupType) (e : string) (temporary : bool) :
  editable props = Some true ->
  expression props = Some e0 ->
  e0 <> EmptyString ->
  In (OnConfirm t e temporary)
     (selectRule toLowerCase trim isValidExpression hasExactRule
                 props checked inputValue type) ->
  t = Some type /\
  e = toLowerCase (trim inputValue) /\
  e <> EmptyString /\
  isValidExpression e = true /\
  hasExactRule e = false /\
  temporary = checked.
Proof.
  intros Hedit Hexpr Hne. unfold selectRule, confirmAndHideChecked, isEditable.
  rewrite Hexpr, Hedit.
  apply truthy_nonempty in Hne. rewrite Hne. simpl.
  destruct (JsString.truthy (toLowerCase (trim inputValue))) eqn:Htruthy; simpl;
    [|intros []].
  destruct (isValidExpression (toLowerCase (trim inputValue))) eqn:Hvalid; simpl;
    [|intros []].
  destruct (hasExactRule (toLowerCase (trim inputValue))) eqn:Hrule; simpl.
  - intros [H|[]]. discriminate H.
  - intros [H|[H|[]]]; [discriminate H|]. injection H as <- <- <-.
    apply truthy_nonempty in Htruthy. repeat split; assumption.
Qed.

(** X17: what choosing a cleanup type can do.  Either nothing happens (the
    edited text is empty or not a valid expression), or the replace
    confirmation is opened for an expression that has an exact rule, in an
    editable dialog, or the dialog is hidden and then exactly one
    confirmation is reported.  A dialog that is not editable always takes
    the last way and reports the expression it was opened with, unchanged
    (the empty string if it had none). *)
Theorem selectRule_outcomes (props : RuleDialogProps) (checked : bool)
        (inputValue : string) (type : CleanupType) :
  let effects := selectRule toLowerCase trim isValidExpression hasExactRule
                            props checked inputValue type in
  (effects = [] \/
   (exists e, effects = [OpenConfirmDialog type e] /\
              isEditable props = true /\ e <> EmptyString /\ hasExactRule e = true) \/
   (exists e, effects = [HideDialog; OnConfirm (Some type) e checked])) /\
  (isEditable props = false ->
   effects = [HideDialog;
              OnConfirm (Some type)
                        match expression props with
                        | Some e => e
                        | None => EmptyString
                        end checked]).
Proof.
  unfold selectRule, confirmAndHideChecked. split.
  - destruct (expression props) as [e0|]; simpl.
    + destruct (JsString.truthy e0) eqn:H0; simpl.
      * destruct (isEditable props) eqn:Hedit; simpl.
        -- destruct (JsString.truthy (toLowerCase (trim inputValue))) eqn:Ht; simpl;
             [|left; reflexivity].
           destruct (isValidExpression (toLowerCase (trim inputValue))); simpl;
             [|left; reflexivity].
           destruct (hasExactRule (toLowerCase (trim inputValue))) eqn:Hr; simpl.
           ++ right. left. eexists. split; [reflexivity|].
              apply truthy_nonempty in Ht. repeat split; assumption.
           ++ right. right. eexists. reflexivity.
        -- right. right. eexists. reflexivity.
      * rewrite andb_false_r. simpl. right. right. eexists. reflexivity.
    + rewrite andb_false_r. simpl. right. right. eexists. reflexivity.
  - intros Hedit. rewrite Hedit. simpl.
    destruct (expression props) as [e0|]; simpl; [|reflexivity].
    destruct (JsString.truthy e0) eqn:H0; simpl; [reflexivity|].
    unfold JsString.truthy in H0. apply negb_false_iff in H0.
    apply String.eqb_eq in H0. subst e0. reflexivity.
Qed.
End RuleDialogFacts.

Lemma selectRule_confirms_only_new_valid_witness :
  In (OnConfirm (Some LEAVE) "*.example.com" true)
     (selectRule JsString.asciiToLowerCase asciiTrim (fun _ => true) (fun _ => false)
                 {| expression := Some "example.com"; editable := Some true |}
                 true "  *.Example.com " LEAVE) /\
  "*.example.com" = JsString.asciiToLowerCase (asciiTrim "  *.Example.com ").
Proof.
  split; [vm_compute; right; left; reflexivity|].
  apply (selectRule_confirms_only_new_valid
           JsString.asciiToLowerCase asciiTrim (fun _ => true) (fun _ => false)
           {| expression := Some "example.com"; editable := Some true |}
           true "  *.Example.com " "example.com" LEAVE
           (Some LEAVE) "*.example.com" true).
  - reflexivity.
  - reflexivity.
  - discriminate.
  - vm_compute. right. left. reflexivity.
Defined.

(** ** A stable sort has one result *)

Section StableSort.
Context {A : Type}.
Variable compareFn : A -> A -> Z.
Hypothesis compareFn_opp : forall a b, compareFn b a = (- compareFn a b)%Z.
Hypothesis compareFn_trans :
  forall a b c, inOrder compareFn a b -> inOrder compareFn b c -> inOrder compareFn a c.

Lemma compareFn_refl (a : A) : compareFn a a = 0%Z.
Proof. pose proof (compareFn_opp a a). lia. Qed.

Lemma compareFn_either (a b : A) : inOrder compareFn a b \/ inOrder compareFn b a.
Proof. unfold inOrder. rewrite (compareFn_opp a b). lia. Qed.

Lemma insert_stable (x y : A) (l : list A) :
  filter (tiedWith compareFn x) (JsArray.insert compareFn y l) =
  filter (tiedWith compareFn x) (y :: l).
Proof.
  induction l as [|z l IH]; [reflexivity|].
  cbn [JsArray.insert].
  destruct (compareFn y z <=? 0)%Z eqn:Eyz; [reflexivity|].
  apply Z.leb_gt in Eyz.
  cbn [filter] in IH |- *. rewrite IH.
  destruct (tiedWith compareFn x z) eqn:Exz; [|reflexivity].
  destruct (tiedWith compareFn x y) eqn:Exy; [|reflexivity].
  exfalso. unfold tiedWith in Exz, Exy. apply Z.eqb_eq in Exz, Exy.
  assert (Hyz : inOrder compareFn y z).
  { apply compareFn_trans with x; unfold inOrder.
    - rewrite (compareFn_opp x y). lia.
    - lia. }
  unfold inOrder in Hyz. lia.
Qed.

Lemma sort_stable (x : A) (l : list A) :
  filter (tiedWith compareFn x) (JsArray.sort compareFn l) =
  filter (tiedWith compareFn x) l.
Proof.
  induction l as [|y l IH]; [reflexivity|].
  cbn [JsArray.sort]. rewrite insert_stable. cbn [filter]. rewrite IH. reflexivity.
Qed.

(** The sort of the model is one conforming sort. *)
Lemma sort_sortedBy (l : list A) : sortedBy compareFn l (JsArray.sort compareFn l).
Proof.
  split; [|split].
  - apply Permutation_sym. apply sort_perm.
  - apply sort_sorted. apply compareFn_either.
  - intros x. apply sort_stable.
Qed.

Lemma stable_sorted_unique (l1 : list A) :
  forall l2,
    Sorted (inOrder compareFn) l1 -> Sorted (inOrder compareFn) l2 ->
    Permutation l1 l2 ->
    (forall x, filter (tiedWith compareFn x) l1 = filter (tiedWith compareFn x) l2) ->
    l1 = l2.
Proof.
  induction l1 as [|x t1 IH]; intros l2 Hs1 Hs2 Hperm Hf.
  - apply Permutation_nil in Hperm. symmetry. exact Hperm.
  - destruct l2 as [|y t2].
    + apply Permutation_sym, Permutation_nil in Hperm. discriminate.
    + assert (Hxy : compareFn x y = 0%Z).
      { assert (Hy : In y (x :: t1)).
        { apply (Permutation_in _ (Permutation_sym Hperm)). left. reflexivity. }
        assert (Hx : In x (y :: t2)).
        { apply (Permutation_in _ Hperm). left. reflexivity. }
        destruct Hy as [<-|Hy]; [apply compareFn_refl|].
        destruct Hx as [->|Hx]; [apply compareFn_refl|].
        pose proof (Sorted_all_after _ compareFn_trans _ _ Hs1 y Hy) as H1.
        pose proof (Sorted_all_after _ compareFn_trans _ _ Hs2 x Hx) as H2.
        unfold inOrder in H1, H2. rewrite (compareFn_opp x y) in H2. lia. }
      assert (Exy : x = y).
      { assert (T1 : tiedWith compareFn x x = true).
        { unfold tiedWith. rewrite compareFn_refl. reflexivity. }
        assert (T2 : tiedWith compareFn x y = true).
        { unfold tiedWith. rewrite Hxy. reflexivity. }
        specialize (Hf x). cbn [filter] in Hf. rewrite T1, T2 in Hf.
        injection Hf as E _. exact E. }
      subst y. f_equal. apply IH.
      * inversion Hs1; assumption.
      * inversion Hs2; assumption.
      * apply Permutation_cons_inv with (a := x). exact Hperm.
      * intros z. specialize (Hf z). cbn [filter] in Hf.
        destruct (tiedWith compareFn z x); [injection Hf as Hf|]; exact Hf.
Qed.

Lemma sortedBy_unique (l l1 l2 : list A) :
  sortedBy compareFn l l1 -> sortedBy compareFn l l2 -> l1 = l2.
Proof.
  intros (Hp1 & Hs1 & Hf1) (Hp2 & Hs2 & Hf2).
  apply stable_sorted_unique; try assumption.
  - eapply perm_trans; [apply Permutation_sym; exact Hp1|exact Hp2].
  - intros x. rewrite Hf1, Hf2. reflexivity.
Qed.
End StableSort.

Lemma sortedBy_ext {A : Type} (f g : A -> A -> Z) (l l' : list A) :
  (forall a b, f a b = g a b) -> sortedBy f l l' -> sortedBy g l l'.
Proof.
  intros Hfg (Hp & Hs & Hf). split; [exact Hp|]. split.
  - apply Sorted_weaken with (R := inOrder f); [|exact Hs].
    intros a b. unfold inOrder. rewrite Hfg. auto.
  - intros x.
    assert (E : forall a, tiedWith g x a = tiedWith f x a).
    { intros a. unfold tiedWith. rewrite Hfg. reflexivity. }
    rewrite (filter_ext _ _ E l'), (filter_ext _ _ E l). apply Hf.
Qed.

(** ** Two runs of [getCookieList] agree *)

Section RunsOnOneInput.
Variable toLowerCase : string -> string.
Variable getDomain : string -> option string.
Variable getCleanupTypeForCookie : string -> string -> CleanupType.
Variable getCleanupTypeForDomain : string -> CleanupType.
Variable getBadgeForCleanupType : CleanupType -> BadgeInfo.

Lemma compareCookieName_opp (a b : CookieListCookie.t) :
  compareCookieName toLowerCase b a = (- compareCookieName toLowerCase a b)%Z.
Proof. apply compareCaseInsensitive_opp. Qed.

Lemma compareCookieName_le_trans (a b c : CookieListCookie.t) :
  inOrder (compareCookieName toLowerCase) a b ->
  inOrder (compareCookieName toLowerCase) b c ->
  inOrder (compareCookieName toLowerCase) a c.
Proof. apply compareCaseInsensitive_le_trans. Qed.

Lemma cookiesSortedBy_unique (a g1 g2 : CookieListForDomain.t) :
  cookiesSortedBy toLowerCase a g1 -> cookiesSortedBy toLowerCase a g2 -> g1 = g2.
Proof.
  intros (Hb1 & Hd1 & Hf1 & Hc1) (Hb2 & Hd2 & Hf2 & Hc2).
  pose proof (sortedBy_unique _ compareCookieName_opp compareCookieName_le_trans
                _ _ _ Hc1 Hc2) as Hc.
  destruct g1, g2. simpl in *. congruence.
Qed.

Lemma cookiesSortedBy_all_unique (l : list CookieListForDomain.t) :
  forall l1 l2,
    Forall2 (cookiesSortedBy toLowerCase) l l1 ->
    Forall2 (cookiesSortedBy toLowerCase) l l2 -> l1 = l2.
Proof.
  induction l as [|a l IH]; intros l1 l2 H1 H2; inversion H1; inversion H2; subst.
  - reflexivity.
  - f_equal.
    + eapply cookiesSortedBy_unique; eassumption.
    + apply IH; assumption.
Qed.

Lemma mayReturn_unique (cookies : list Cookies.Cookie)
      (outcome1 outcome2 : result (list CookieListForDomain.t)) :
  mayReturn toLowerCase getDomain getCleanupTypeForCookie getCleanupTypeForDomain
            getBadgeForCleanupType cookies outcome1 ->
  mayReturn toLowerCase getDomain getCleanupTypeForCookie getCleanupTypeForDomain
            getBadgeForCleanupType cookies outcome2 ->
  outcome1 = outcome2.
Proof.
  unfold mayReturn.
  destruct (addCookies getDomain getCleanupTypeForCookie getCleanupTypeForDomain
                       getBadgeForCleanupType JsObject.empty cookies) as [o|].
  - intros (mid1 & groups1 & Hmid1 & Hgroups1 & ->) (mid2 & groups2 & Hmid2 & Hgroups2 & ->).
    pose proof (sortedBy_unique _ (compareDomain_opp toLowerCase)
                  (compareDomain_le_trans toLowerCase) _ _ _ Hmid1 Hmid2) as E.
    subst mid2. f_equal. eapply cookiesSortedBy_all_unique; eassumption.
  - intros -> ->. reflexivity.
Qed.

(** The function of the model is a run. *)
Lemma mayReturn_getCookieList (cookies : list Cookies.Cookie) :
  mayReturn toLowerCase getDomain getCleanupTypeForCookie getCleanupTypeForDomain
            getBadgeForCleanupType cookies
            (getCookieList toLowerCase getDomain getCleanupTypeForCookie
                           getCleanupTypeForDomain getBadgeForCleanupType cookies).
Proof.
  unfold mayReturn, getCookieList.
  destruct (addCookies getDomain getCleanupTypeForCookie getCleanupTypeForDomain
                       getBadgeForCleanupType JsObject.empty cookies) as [o|]; simpl;
    [|reflexivity].
  exists (JsArray.sort (compareDomain toLowerCase) (groupsOf o)),
    (sortGroups toLowerCase (groupsOf o)).
  split; [|split; [|reflexivity]].
  - apply sort_sortedBy.
    + apply compareDomain_opp.
    + apply compareDomain_le_trans.
  - unfold sortGroups. apply Forall2_map_right. intros a.
    unfold cookiesSortedBy. simpl. repeat split.
    + apply Permutation_sym. apply sort_perm.
    + apply sort_sorted. apply compareCookieName_total.
    + intros x. apply sort_stable.
      * apply compareCookieName_opp.
      * apply compareCookieName_le_trans.
Qed.
End RunsOnOneInput.

Section RunsAgree.
Variables toLowerCase1 toLowerCase2 : string -> string.
Variables getDomain1 getDomain2 : string -> option string.
Variables getCleanupTypeForCookie1 getCleanupTypeForCookie2 :
  string -> string -> CleanupType.
Variables getCleanupTypeForDomain1 getCleanupTypeForDomain2 : string -> CleanupType.
Variables getBadgeForCleanupType1 getBadgeForCleanupType2 : CleanupType -> BadgeInfo.

Hypothesis toLowerCase_same : forall s, toLowerCase1 s = toLowerCase2 s.
Hypothesis getDomain_same : forall d, getDomain1 d = getDomain2 d.
Hypothesis getCleanupTypeForCookie_same :
  forall d n, getCleanupTypeForCookie1 d n = getCleanupTypeForCookie2 d n.
Hypothesis getCleanupTypeForDomain_same :
  forall d, getCleanupTypeForDomain1 d = getCleanupTypeForDomain2 d.
Hypothesis getBadgeForCleanupType_same :
  forall t, getBadgeForCleanupType1 t = getBadgeForCleanupType2 t.

Lemma mayReturn_same_answers (cookies : list Cookies.Cookie)
      (outcome : result (list CookieListForDomain.t)) :
  mayReturn toLowerCase2 getDomain2 getCleanupTypeForCookie2 getCleanupTypeForDomain2
            getBadgeForCleanupType2 cookies outcome ->
  mayReturn toLowerCase1 getDomain1 getCleanupTypeForCookie1 getCleanupTypeForDomain1
            getBadgeForCleanupType1 cookies outcome.
Proof.
  unfold mayReturn.
  rewrite (addCookies_same getDomain1 getDomain2
             getCleanupTypeForCookie1 getCleanupTypeForCookie2
             getCleanupTypeForDomain1 getCleanupTypeForDomain2
             getBadgeForCleanupType1 getBadgeForCleanupType2
             getDomain_same getCleanupTypeForCookie_same
             getCleanupTypeForDomain_same getBadgeForCleanupType_same cookies).
  destruct (addCookies getDomain2 getCleanupTypeForCookie2 getCleanupTypeForDomain2
                       getBadgeForCleanupType2 JsObject.empty cookies) as [o|];
    [|auto].
  intros (mid & groups & Hmid & Hgroups & ->). exists mid, groups.
  split; [|split; [|reflexivity]].
  - apply sortedBy_ext with (f := compareDomain toLowerCase2); [|exact Hmid].
    intros a b. symmetry.
    apply (compareDomain_same toLowerCase1 toLowerCase2 toLowerCase_same).
  - apply Forall2_impl with (R1 := cookiesSortedBy toLowerCase2); [|exact Hgroups].
    intros a g (Hb & Hd & Hf & Hc). repeat split; try assumption.
    + apply Hc.
    + apply Sorted_weaken with (R := inOrder (compareCookieName toLowerCase2));
        [|apply Hc].
      intros x y. unfold inOrder.
      rewrite (compareCookieName_same toLowerCase1 toLowerCase2 toLowerCase_same).
      auto.
    + intros x.
      assert (E : forall y, tiedWith (compareCookieName toLowerCase1) x y =
                            tiedWith (compareCookieName toLowerCase2) x y).
      { intros y. unfold tiedWith.
        rewrite (compareCookieName_same toLowerCase1 toLowerCase2 toLowerCase_same).
        reflexivity. }
      rewrite (filter_ext _ _ E (CookieListForDomain.cookies g)),
        (filter_ext _ _ E (CookieListForDomain.cookies a)).
      apply Hc.
Qed.

(** C7: [getCookieList] is deterministic.  Take two runs on the same
    sequence of cookie records, each on an engine whose
    [Array.prototype.sort] may use any algorithm that meets the language's
    requirements (a stable rearrangement into order), and with
    collaborators (lower-casing, first-party resolver, the two
    classification functions, the badge lookup) that give the same answers
    for the same arguments.  Then the two runs end the same way: with the
    same groups in the same order, holding the same cookies in the same
    order with the same classifications, or both with the exception of the
    loop.  Such runs exist: the function of the model is one. *)
Theorem getCookieList_runs_agree (cookies : list Cookies.Cookie) :
  mayReturn toLowerCase1 getDomain1 getCleanupTypeForCookie1 getCleanupTypeForDomain1
            getBadgeForCleanupType1 cookies
            (getCookieList toLowerCase1 getDomain1 getCleanupTypeForCookie1
                           getCleanupTypeForDomain1 getBadgeForCleanupType1 cookies) /\
  forall outcome1 outcome2,
    mayReturn toLowerCase1 getDomain1 getCleanupTypeForCookie1 getCleanupTypeForDomain1
              getBadgeForCleanupType1 cookies outcome1 ->
    mayReturn toLowerCase2 getDomain2 getCleanupTypeForCookie2 getCleanupTypeForDomain2
              getBadgeForCleanupType2 cookies outcome2 ->
    outcome1 = outcome2.
Proof.
  split; [apply mayReturn_getCookieList|].
  intros outcome1 outcome2 H1 H2.
  apply mayReturn_same_answers in H2.
  eapply mayReturn_unique; eassumption.
Qed.
End RunsAgree.

Lemma getCookieList_runs_agree_witness :
  mayReturn JsString.asciiToLowerCase lastTwoLabels cookieType domainType badgeOf
    [mkCookie "Example.com" "b"; mkCookie "example.com" "a"; mkCookie "example.com" "A";
     mkCookie "localhost" "c"]
    (getCookieList JsString.asciiToLowerCase lastTwoLabels cookieType domainType badgeOf
       [mkCookie "Example.com" "b"; mkCookie "example.com" "a"; mkCookie "example.com" "A";
        mkCookie "localhost" "c"]) /\
  getCookieList JsString.asciiToLowerCase lastTwoLabels cookieType domainType badgeOf
    [mkCookie "Example.com" "b"; mkCookie "example.com" "a"; mkCookie "example.com" "A";
     mkCookie "localhost" "c"] =
  getCookieList (fun s => JsString.asciiToLowerCase s) (fun d => lastTwoLabels d)
    (fun _ _ => LEAVE) (fun _ => STARTUP) (fun t => badgeOf t)
    [mkCookie "Example.com" "b"; mkCookie "example.com" "a"; mkCookie "example.com" "A";
     mkCookie "localhost" "c"].
Proof.
  destruct (getCookieList_runs_agree
              JsString.asciiToLowerCase (fun s => JsString.asciiToLowerCase s)
              lastTwoLabels (fun d => lastTwoLabels d)
              cookieType (fun _ _ => LEAVE)
              domainType (fun _ => STARTUP)
              badgeOf (fun t => badgeOf t)
              (fun s => eq_refl) (fun d => eq_refl) (fun d n => eq_refl)
              (fun d => eq_refl) (fun t => eq_refl)
              [mkCookie "Example.com" "b"; mkCookie "example.com" "a";
               mkCookie "example.com" "A"; mkCookie "localhost" "c"])
    as [Hrun Hagree].
  split; [exact Hrun|].
  apply Hagree; [exact Hrun|].
  apply mayReturn_getCookieList.
Defined.

(** Stability is what makes the runs agree: being a rearrangement into
    order does not fix the result when two different groups compare equal. *)
Lemma sorted_rearrangement_not_unique :
  let upper := groupFor lastTwoLabels cookieType domainType badgeOf "Example.com" [] in
  let lower := groupFor lastTwoLabels cookieType domainType badgeOf "example.com" [] in
  Sorted (inOrder (compareDomain JsString.asciiToLowerCase)) [upper; lower] /\
  Sorted (inOrder (compareDomain JsString.asciiToLowerCase)) [lower; upper] /\
  Permutation [upper; lower] [lower; upper] /\
  [upper; lower] <> [lower; upper].
Proof.
  simpl. split; [|split; [|split]].
  - repeat constructor. vm_compute. discriminate.
  - repeat constructor. vm_compute. discriminate.
  - apply perm_swap.
  - intros E. injection E as E _. vm_compute in E. discriminate E.
Qed.
